(** * hashfs: a hashing [fs.FS] adapter (Go package [hashfs], file hashfs.go)

    A shallow embedding of the package.  Go strings are byte sequences and
    are modelled as [string] (a sequence of 8-bit [ascii]); [[]byte] is
    [list Byte.byte]; the two Go maps of the [FS] struct are [gmap]s; a Go
    [(value, error)] pair is a [result].  A method of [*FS] is a function in
    the monad [M], which threads the adapter, records the calls made to the
    backing file system and can panic (a slice expression out of range).

    The calls are sequential: [sync.RWMutex] is not modelled, each method runs
    to completion against the backing file system as it is when the method is
    called.  The backing file system itself is outside the package and may
    change between two calls. *)

From Stdlib Require Import ZArith String Ascii List Lia Bool.
From Stdlib Require Import Strings.Byte.
From stdpp Require Import gmap strings list fin_maps.

Open Scope Z_scope.

(** ** Go strings *)

Module GoString.

(** [len(s)]: a Go [int]; a length is below 2^63, so the differences of two
    lengths computed below never wrap. *)
Definition len (s : string) : Z := Z.of_nat (String.length s).

(** [s[lo:hi]]: panics ([None]) unless [0 <= lo <= hi <= len(s)]. *)
Definition slice (s : string) (lo hi : Z) : option string :=
  if (0 <=? lo) && (lo <=? hi) && (hi <=? len s)
  then Some (substring (Z.to_nat lo) (Z.to_nat (hi - lo)) s)
  else None.

(** [s[:hi]] *)
Definition slice_to (s : string) (hi : Z) : option string := slice s 0 hi.

(** [s[lo:]] *)
Definition slice_from (s : string) (lo : Z) : option string := slice s lo (len s).

(** every character of [s] satisfies [p] *)
Fixpoint all (p : ascii -> bool) (s : string) : bool :=
  match s with
  | EmptyString => true
  | String c r => p c && all p r
  end.

End GoString.
Import GoString.

(** ** path/filepath.Ext (Unix build: the separator is the slash)

<<
func Ext(path string) string {
	for i := len(path) - 1; i >= 0 && !os.IsPathSeparator(path[i]); i-- {
		if path[i] == '.' {
			return path[i:]
		}
	}
	return ""
}
>> *)

Definition IsPathSeparator (c : ascii) : bool := Ascii.eqb c "/".

(** The loop of [Ext], entered with [i = n - 1]. *)
Fixpoint Ext_loop (path : string) (n : nat) : string :=
  match n with
  | O => ""
  | S i =>
      match String.get i path with
      | Some c =>
          if IsPathSeparator c then ""
          else if Ascii.eqb c "." then substring i (String.length path - i) path
          else Ext_loop path i
      | None => ""
      end
  end.

Definition Ext (path : string) : string := Ext_loop path (String.length path).

(** ** crypto/sha256.Sum256 (FIPS 180-4), on 32-bit words held in [Z] *)

Module Sha256.

Definition w32 (x : Z) : Z := Z.land x 0xffffffff.
Definition add32 (x y : Z) : Z := w32 (x + y).
Definition rotr (n x : Z) : Z := Z.lor (Z.shiftr x n) (w32 (Z.shiftl x (32 - n))).
Definition not32 (x : Z) : Z := Z.lxor x 0xffffffff.
Definition Ch (x y z : Z) : Z := Z.lxor (Z.land x y) (Z.land (not32 x) z).
Definition Maj (x y z : Z) : Z := Z.lxor (Z.lxor (Z.land x y) (Z.land x z)) (Z.land y z).
Definition bsig0 (x : Z) : Z := Z.lxor (Z.lxor (rotr 2 x) (rotr 13 x)) (rotr 22 x).
Definition bsig1 (x : Z) : Z := Z.lxor (Z.lxor (rotr 6 x) (rotr 11 x)) (rotr 25 x).
Definition ssig0 (x : Z) : Z := Z.lxor (Z.lxor (rotr 7 x) (rotr 18 x)) (Z.shiftr x 3).
Definition ssig1 (x : Z) : Z := Z.lxor (Z.lxor (rotr 17 x) (rotr 19 x)) (Z.shiftr x 10).

(** the first 64 primes *)
Definition primes : list Z :=
  [2; 3; 5; 7; 11; 13; 17; 19] ++ [23; 29; 31; 37; 41; 43; 47; 53] ++
  [59; 61; 67; 71; 73; 79; 83; 89] ++ [97; 101; 103; 107; 109; 113; 127; 131] ++
  [137; 139; 149; 151; 157; 163; 167; 173] ++ [179; 181; 191; 193; 197; 199; 211; 223] ++
  [227; 229; 233; 239; 241; 251; 257; 263] ++ [269; 271; 277; 281; 283; 293; 307; 311].

(** the integer cube root of [n], by bisection between [lo] and [hi] *)
Fixpoint cbrt_between (fuel : nat) (n lo hi : Z) : Z :=
  match fuel with
  | O => lo
  | S fuel' =>
      let mid := (lo + hi + 1) / 2 in
      if mid * mid * mid <=? n then cbrt_between fuel' n mid hi
      else cbrt_between fuel' n lo (mid - 1)
  end.

(** the first 32 bits of the fractional part of the cube root of [p] *)
Definition frac_cbrt (p : Z) : Z := w32 (cbrt_between 40 (p * 2 ^ 96) 0 (2 ^ 36)).

(** the first 32 bits of the fractional part of the square root of [p] *)
Definition frac_sqrt (p : Z) : Z := w32 (Z.sqrt (p * 2 ^ 64)).

(** the round constants: from the cube roots of the first 64 primes *)
Definition K : list Z := Eval vm_compute in map frac_cbrt primes.

(** the eight working words *)
Record state := mkState { h0 : Z; h1 : Z; h2 : Z; h3 : Z; h4 : Z; h5 : Z; h6 : Z; h7 : Z }.

(** the initial hash value: from the square roots of the first 8 primes *)
Definition init : state :=
  Eval vm_compute in
    mkState (frac_sqrt 2) (frac_sqrt 3) (frac_sqrt 5) (frac_sqrt 7)
            (frac_sqrt 11) (frac_sqrt 13) (frac_sqrt 17) (frac_sqrt 19).

(** The message schedule, latest word first: [n] more words are added to [w]. *)
Fixpoint expand (n : nat) (w : list Z) : list Z :=
  match n with
  | O => w
  | S n' =>
      let x := add32 (add32 (ssig1 (nth 1 w 0)) (nth 6 w 0))
                     (add32 (ssig0 (nth 14 w 0)) (nth 15 w 0)) in
      expand n' (x :: w)
  end.

Definition round (d : state) (kw : Z * Z) : state :=
  let '(k, w) := kw in
  let t1 := add32 (add32 (add32 (h7 d) (bsig1 (h4 d))) (add32 (Ch (h4 d) (h5 d) (h6 d)) k)) w in
  let t2 := add32 (bsig0 (h0 d)) (Maj (h0 d) (h1 d) (h2 d)) in
  mkState (add32 t1 t2) (h0 d) (h1 d) (h2 d) (add32 (h3 d) t1) (h4 d) (h5 d) (h6 d).

(** [n] big-endian 32-bit words read from the bytes [bs] *)
Fixpoint be_words (bs : list Z) (n : nat) : list Z :=
  match n with
  | O => []
  | S n' =>
      match bs with
      | a :: b :: c :: e :: rest =>
          Z.lor (Z.lor (Z.shiftl a 24) (Z.shiftl b 16)) (Z.lor (Z.shiftl c 8) e)
          :: be_words rest n'
      | _ => []
      end
  end.

Definition block (d : state) (bs : list Z) : state :=
  let w := rev (expand 48 (rev (be_words bs 16))) in
  let r := fold_left round (combine K w) d in
  mkState (add32 (h0 d) (h0 r)) (add32 (h1 d) (h1 r)) (add32 (h2 d) (h2 r))
          (add32 (h3 d) (h3 r)) (add32 (h4 d) (h4 r)) (add32 (h5 d) (h5 r))
          (add32 (h6 d) (h6 r)) (add32 (h7 d) (h7 r)).

Fixpoint blocks (n : nat) (d : state) (bs : list Z) : state :=
  match n with
  | O => d
  | S n' => blocks n' (block d (firstn 64 bs)) (skipn 64 bs)
  end.

(** the low [n] bytes of [x], most significant first *)
Definition be_bytes (n : nat) (x : Z) : list Z :=
  map (fun i => Z.land (Z.shiftr x (8 * Z.of_nat i)) 0xff) (rev (seq 0 n)).

Definition pad (msg : list Z) : list Z :=
  let l := Z.of_nat (length msg) in
  msg ++ [0x80] ++ repeat 0 (Z.to_nat ((55 - l) mod 64)) ++ be_bytes 8 (8 * l).

Definition sum (msg : list Z) : list Z :=
  let p := pad msg in
  let d := blocks (Nat.div (length p) 64) init p in
  flat_map (be_bytes 4) [h0 d; h1 d; h2 d; h3 d; h4 d; h5 d; h6 d; h7 d].

End Sha256.

Definition byte_to_Z (b : Byte.byte) : Z := Z.of_N (Byte.to_N b).

Definition byte_of_Z (z : Z) : Byte.byte :=
  match Byte.of_N (Z.to_N z) with
  | Some b => b
  | None => Byte.x00
  end.

(** [sha256.Sum256(b)]; the Go result has type [[32]byte]. *)
Definition Sum256 (b : list Byte.byte) : list Byte.byte :=
  map byte_of_Z (Sha256.sum (map byte_to_Z b)).

(** ** encoding/hex.EncodeToString *)

Definition hextable : string := "0123456789abcdef".

Definition hexdigit (z : Z) : ascii :=
  match String.get (Z.to_nat z) hextable with
  | Some c => c
  | None => "0"%char
  end.

Fixpoint hex_EncodeToString (src : list Byte.byte) : string :=
  match src with
  | [] => EmptyString
  | v :: rest =>
      String (hexdigit (Z.shiftr (byte_to_Z v) 4))
        (String (hexdigit (Z.land (byte_to_Z v) 0x0f)) (hex_EncodeToString rest))
  end.

(** ** io/fs: errors, files, file systems *)

Inductive error : Type :=
| ErrInvalid
| ErrPermission
| ErrExist
| ErrNotExist
| ErrClosed
| errorString (msg : string)
| PathError (Op Path : string) (Err : error).

(** a Go [(value, error)] pair *)
Inductive result (A : Type) : Type :=
| Ok (a : A)
| Failed (e : error).
Arguments Ok {A} a.
Arguments Failed {A} e.

(** An open [fs.File], by what reading it to the end gives (a directory
    opens, but cannot be read). *)
Record File : Type := mkFile { ReadAll : result (list Byte.byte) }.

(** An [fs.FS] value is its one method, [Open(name) (File, error)]. *)
Definition fsFS : Type := string -> result File.

(** [fs.ReadFile(fsys, name)]: open, read to the end, close. *)
Definition fs_ReadFile (fsys : fsFS) (name : string) : result (list Byte.byte) :=
  match fsys name with
  | Failed e => Failed e
  | Ok file => ReadAll file
  end.

(** ** The adapter

<<
type FS struct {
	mu   sync.RWMutex
	fs   fs.FS
	hash map[string]string // ["base.ext"] => "hash"
	base map[string]string // ["base.hash.ext"] => "base.ext"
}
>> *)

Record FS : Type := mkFS {
  fs : fsFS;
  hash : gmap string string;
  base : gmap string string
}.

(** [New(fs)] *)
Definition New (fsys : fsFS) : FS := mkFS fsys ∅ ∅.

(** The calls a method makes to the backing file system. *)
Inductive event : Type :=
| EvReadFile (name : string)
| EvOpen (name : string).

(** A method body: from the adapter to a value, the adapter afterwards and
    the backing file system calls made, or [None] for a run-time panic. *)
Definition M (A : Type) : Type := FS -> option (A * FS * list event).

Definition ret {A : Type} (a : A) : M A := fun f => Some (a, f, []).

Definition bind {A B : Type} (m : M A) (k : A -> M B) : M B := fun f =>
  match m f with
  | None => None
  | Some (a, f1, t1) =>
      match k a f1 with
      | None => None
      | Some (b, f2, t2) => Some (b, f2, t1 ++ t2)
      end
  end.

Notation "x <- m ;; k" := (bind m (fun x => k))
  (at level 100, m at next level, right associativity).

(** a slice expression: its value, or a panic *)
Definition sliced (o : option string) : M string := fun f =>
  match o with
  | Some s => Some (s, f, [])
  | None => None
  end.

(** [fs.ReadFile(f.fs, name)] *)
Definition ReadFile (name : string) : M (result (list Byte.byte)) := fun f =>
  Some (fs_ReadFile (fs f) name, f, [EvReadFile name]).

(** [f.fs.Open(name)] *)
Definition fsOpen (name : string) : M (result File) := fun f =>
  Some (fs f name, f, [EvOpen name]).

(** [f.mu.Lock(); f.hash[name] = hash; f.base[base] = name; f.mu.Unlock()] *)
Definition store (name hash_ base_ : string) : M unit := fun f =>
  Some (tt, mkFS (fs f) (<[name := hash_]> (hash f)) (<[base_ := name]> (base f)), []).

(** [getHash]: a lookup on the hash map. *)
Definition getHash (name : string) : M (string * bool) := fun f =>
  match hash f !! name with
  | Some h => Some ((h, true), f, [])
  | None => Some (("", false), f, [])
  end.

(** [getBase]: a lookup on the base map. *)
Definition getBase (name : string) : M (string * bool) := fun f =>
  match base f !! name with
  | Some b => Some ((b, true), f, [])
  | None => Some (("", false), f, [])
  end.

(** [makeHash]: the full sha256 digest of the named file, in hexadecimal;
    the empty string when the file cannot be read. *)
Definition makeHash (name : string) : M string :=
  r <- ReadFile name;;
  match r with
  | Failed _ => ret ""
  | Ok b => ret (hex_EncodeToString (Sum256 b))
  end.

(** [Hash] *)
Definition Hash (name : string) : M string :=
  r <- getHash name;;
  let '(h, ok) := r in
  if ok : bool then ret h
  else
    let ext := Ext name in
    h <- makeHash name;;
    if String.eqb h "" then ret ""
    else
      stem <- sliced (slice_to name (len name - len ext));;
      let b := stem +:+ "." +:+ h +:+ ext in
      _ <- store name h b;;
      ret h.

(** [Name] *)
Definition Name (name : string) : M string :=
  let ext := Ext name in
  h <- Hash name;;
  if String.eqb h "" then ret ""
  else
    stem <- sliced (slice_to name (len name - len ext));;
    ret (stem +:+ "." +:+ h +:+ ext).

(** the error of [Open]: [&fs.PathError{Op: "open", Path: name, Err: fs.ErrNotExist}] *)
Definition NotExist (name : string) : error := PathError "open" name ErrNotExist.

(** [Open] *)
Definition Open (name : string) : M (result File) :=
  r <- getBase name;;
  let '(b, ok) := r in
  if ok : bool then fsOpen b
  else
    let ext := Ext name in
    if String.eqb ext "" then ret (Failed (NotExist name))
    else
      rest <- sliced (slice_to name (len name - len ext));;
      let hashExt := Ext rest in
      r <-
        (if String.eqb hashExt "" then
           b <- sliced (slice_to name (len name - len ext));;
           ret (b, ext)
         else
           stem <- sliced (slice_to name (len name - len hashExt - len ext));;
           ret (stem +:+ ext, hashExt));;
      let '(b, hashExt) := r in
      h <- makeHash b;;
      invalid <-
        (if String.eqb h "" then ret true
         else
           digits <- sliced (slice_from hashExt 1);;
           ret (negb (String.eqb digits h)));;
      if invalid : bool then ret (Failed (NotExist name))
      else
        _ <- store b h name;;
        fsOpen b.

(** ** Notions used to state the properties *)

(** [name[:len(name)-len(ext)]] for [ext := filepath.Ext(name)], as a value *)
Definition stem (name : string) : string :=
  substring 0 (String.length name - String.length (Ext name)) name.

(** The naming rule of [Hash] and [Name]: [name[:len(name)-len(ext)] + "." + hash + ext]. *)
Definition hashed (name h : string) : string :=
  stem name +:+ "." +:+ h +:+ Ext name.

(** What [makeHash] returns for [name] on the file system [fsys]. *)
Definition digest_of (fsys : fsFS) (name : string) : string :=
  match fs_ReadFile fsys name with
  | Failed _ => ""
  | Ok b => hex_EncodeToString (Sum256 b)
  end.

(** What [Open] takes a requested name apart into: the plain name and the
    extension holding the digest ([base] and [hashExt] at line 96). *)
Definition candidate (name : string) : string * string :=
  let ext := Ext name in
  let hashExt := Ext (stem name) in
  if String.eqb hashExt "" then (stem name, ext)
  else (stem (stem name) +:+ ext, hashExt).

(** [s[1:]] of a non-empty string, as a value *)
Definition tail (s : string) : string :=
  match s with
  | EmptyString => ""
  | String _ r => r
  end.

Definition is_lower_hex (c : ascii) : bool :=
  existsb (Ascii.eqb c) (list_ascii_of_string hextable).

(** a 64-character lowercase hexadecimal string *)
Definition is_digest (d : string) : Prop :=
  String.length d = 64%nat /\ all is_lower_hex d = true.


(** neither a dot nor a path separator *)
Definition plain (c : ascii) : bool :=
  negb (IsPathSeparator c) && negb (Ascii.eqb c ".").

(** not a path separator: what the characters of one path element are *)
Definition noslash (c : ascii) : bool := negb (IsPathSeparator c).

(** The same adapter over a backing file system that has changed. *)
Definition with_fs (fsys : fsFS) (f : FS) : FS := mkFS fsys (hash f) (base f).

(** The adapter after the digest [h] of the plain name [name] is recorded,
    in both maps. *)
Definition put (name h : string) (f : FS) : FS :=
  mkFS (fs f) (<[name := h]> (hash f)) (<[hashed name h := name]> (base f)).

(** A history of an adapter: calls of its three methods, and changes of
    the backing file system between them. *)
Inductive step : Type :=
| CallHash (name : string)
| CallName (name : string)
| CallOpen (name : string)
| Change (fsys : fsFS).

(** the adapter after one step *)
Definition after (s : step) (f : FS) : option FS :=
  match s with
  | CallHash name => match Hash name f with Some (_, f', _) => Some f' | None => None end
  | CallName name => match Name name f with Some (_, f', _) => Some f' | None => None end
  | CallOpen name => match Open name f with Some (_, f', _) => Some f' | None => None end
  | Change fsys => Some (with_fs fsys f)
  end.

Fixpoint run (f : FS) (steps : list step) : option FS :=
  match steps with
  | [] => Some f
  | s :: rest =>
      match after s f with
      | Some f' => run f' rest
      | None => None
      end
  end.

Definition is_change (s : step) : bool :=
  match s with
  | Change _ => true
  | _ => false
  end.

Definition is_open (s : step) : bool :=
  match s with
  | CallOpen _ => true
  | _ => false
  end.

(** a history in which the backing file system does not change *)
Definition quiet (steps : list step) : bool :=
  forallb (fun s => negb (is_change s)) steps.

(** a history without a call of [Open] *)
Definition no_open (steps : list step) : bool :=
  forallb (fun s => negb (is_open s)) steps.

(** [f] is the adapter after some history that started with [New]. *)
Definition reachable (f : FS) : Prop :=
  exists fsys steps, run (New fsys) steps = Some f.

(** The two maps agree: a cached digest has its hashed name in the base
    map, and a name of the base map is the hashed name of its plain name
    for some digest, the plain name having a cached digest. *)
Definition consistent (f : FS) : Prop :=
  (forall p d, hash f !! p = Some d ->
     is_digest d /\ base f !! hashed p d = Some p) /\
  (forall k p, base f !! k = Some p ->
     exists d, is_digest d /\ k = hashed p d /\ is_Some (hash f !! p)).

(** The two maps agree exactly, as a table with two indexes. *)
Definition coherent (f : FS) : Prop :=
  forall p d, hash f !! p = Some d <-> base f !! hashed p d = Some p.

(** Every name of the base map is the hashed name of its plain name for
    the digest that is cached for it now. *)
Definition agree (f : FS) : Prop :=
  forall k p, base f !! k = Some p ->
    exists d, k = hashed p d /\ hash f !! p = Some d.


(** Every cached digest is the digest of the file as [fsys] has it. *)
Definition fresh (fsys : fsFS) (f : FS) : Prop :=
  forall p d, hash f !! p = Some d -> d = digest_of fsys p.

(** A backing file system that holds the listed files and nothing else;
    as [testing/fstest.MapFS] does, it fails to open any other name with
    [&fs.PathError{Op: "open", Path: name, Err: fs.ErrNotExist}]. *)
Definition MapFS (files : list (string * list Byte.byte)) : fsFS := fun name =>
  match find (fun e => String.eqb (fst e) name) files with
  | Some e => Ok (mkFile (Ok (snd e)))
  | None => Failed (PathError "open" name ErrNotExist)
  end.

(** the bytes of a line of text *)
Definition line (s : string) : list Byte.byte := list_byte_of_string s ++ [Byte.x0a].

(** the directory [testdata] of the repository's tests *)
Definition testdata : fsFS :=
  MapFS [("testdata/base.ext", line "base.ext"); ("testdata/noext", line "noext")].

(** What the tests of the repository expect. *)
Module Tests.

Definition base_hash : string :=
  "d476fb7be1b02ea9f66c797a0c11b11ff5db1bd702ff6c4720e455a301a501f1".
Definition noext_hash : string :=
  "d9d4e730296e72377ae86529027f7defd5feecf4602a1f15f561cd4fae3644c5".
Definition wrong_hash : string :=
  "8888888888888888888888888888888888888888888888888888888888888888".

(** the value a method returns *)
Definition value {A : Type} (o : option (A * FS * list event)) : option A :=
  match o with
  | Some (a, _, _) => Some a
  | None => None
  end.

Definition fails (o : option (result File * FS * list event)) : bool :=
  match o with
  | Some (Failed (PathError _ _ _), _, _) => true
  | _ => false
  end.

Definition succeeds (o : option (result File * FS * list event)) : bool :=
  match o with
  | Some (Ok _, _, _) => true
  | _ => false
  end.

End Tests.

(** A file that changes: [app.css] holds the line [old], later the line [new]. *)
Module Scenario.

Definition old_fs : fsFS := MapFS [("app.css", line "old")].
Definition new_fs : fsFS := MapFS [("app.css", line "new")].


Definition old_hash : string :=
  "01d09d19c2139a46aebfb577780d123d7396e97201bc7ead210a2ebff8239dee".
Definition new_hash : string :=
  "7aa7a5359173d05b63cfd682e3c38487f3cb4f7f1d60659fe59fab1505977d4c".

Definition old_name : string := "app." +:+ old_hash +:+ ".css".
Definition new_name : string := "app." +:+ new_hash +:+ ".css".

(** the adapter after [Hash("app.css")] on the old file *)
Definition cached : FS := put "app.css" old_hash (New old_fs).

(** the adapter after the file has changed and [Open(new_name)] *)
Definition reopened : FS := put "app.css" new_hash (with_fs new_fs cached).

(** a file whose name ends with a dot *)
Definition dot_fs : fsFS := MapFS [("notes.", line "old")].
Definition dot_name : string := "notes." +:+ old_hash +:+ ".".

End Scenario.

(** * Facts about strings *)

Module StringFacts.
Local Open Scope nat_scope.

Lemma app_nil_l (t : string) : "" +:+ t = t.
Proof. reflexivity. Qed.

Lemma app_cons (c : ascii) (s t : string) : String c s +:+ t = String c (s +:+ t).
Proof. reflexivity. Qed.

Lemma length_app (s t : string) :
  String.length (s +:+ t) = String.length s + String.length t.
Proof.
  induction s as [|c s IH]; [reflexivity|].
  rewrite app_cons. simpl. now rewrite IH.
Qed.

Lemma app_assoc (s t u : string) : (s +:+ t) +:+ u = s +:+ (t +:+ u).
Proof.
  induction s as [|c s IH]; [reflexivity|].
  rewrite !app_cons. now rewrite IH.
Qed.

Lemma app_empty_r (s : string) : s +:+ "" = s.
Proof.
  induction s as [|c s IH]; [reflexivity|].
  rewrite app_cons. now rewrite IH.
Qed.

Lemma get_app_r (s t : string) (n : nat) :
  String.get (String.length s + n) (s +:+ t) = String.get n t.
Proof. induction s as [|c s IH]; [reflexivity | rewrite app_cons; exact IH]. Qed.

Lemma get_length (s : string) (c : ascii) (t : string) :
  String.get (String.length s) (s +:+ String c t) = Some c.
Proof.
  replace (String.length s) with (String.length s + 0) by lia.
  now rewrite get_app_r.
Qed.

Lemma substring_0_length (s : string) : substring 0 (String.length s) s = s.
Proof. induction s as [|c s IH]; simpl; [reflexivity | now rewrite IH]. Qed.

Lemma substring_0_app (s t : string) : substring 0 (String.length s) (s +:+ t) = s.
Proof.
  induction s as [|c s IH]; [now destruct t|].
  rewrite app_cons. simpl. now rewrite IH.
Qed.

Lemma substring_app_r (s t : string) (n : nat) :
  substring (String.length s) n (s +:+ t) = substring 0 n t.
Proof. induction s as [|c s IH]; [reflexivity | rewrite app_cons; exact IH]. Qed.

Lemma app_inv_head (s t u : string) : s +:+ t = s +:+ u -> t = u.
Proof.
  induction s as [|c s IH]; intros H; [exact H|].
  rewrite !app_cons in H. injection H; auto.
Qed.

Lemma app_inv_tail (s t u : string) : s +:+ u = t +:+ u -> s = t.
Proof.
  revert t. induction s as [|c s IH]; intros [|d t] H.
  - reflexivity.
  - apply (f_equal String.length) in H.
    rewrite !length_app in H. simpl in H. lia.
  - apply (f_equal String.length) in H.
    rewrite !length_app in H. simpl in H. lia.
  - rewrite !app_cons in H. injection H as -> H. f_equal. now apply IH.
Qed.

(** a non-empty string ends with a character *)
Lemma snoc_inv (c : ascii) (s : string) :
  exists s' c', String c s = s' +:+ String c' "" /\ String.length s' = String.length s.
Proof.
  revert c. induction s as [|d s IH]; intros c.
  - exists "", c. split; reflexivity.
  - destruct (IH d) as (s' & c' & E & L).
    exists (String c s'), c'. rewrite app_cons, <- E. simpl. split; [reflexivity | now rewrite L].
Qed.

Lemma snoc_ind (P : string -> Prop) :
  P "" -> (forall s c, P s -> P (s +:+ String c "")) -> forall s, P s.
Proof.
  intros H0 HS s.
  remember (String.length s) as n eqn:Hn. revert s Hn.
  induction n as [|n IH]; intros s Hn.
  - destruct s; [exact H0 | discriminate].
  - destruct s as [|c s]; [discriminate|].
    destruct (snoc_inv c s) as (s' & c' & E & L).
    rewrite E. apply HS, IH. simpl in Hn. lia.
Qed.

Lemma all_app (p : ascii -> bool) (s t : string) :
  all p (s +:+ t) = all p s && all p t.
Proof.
  induction s as [|c s IH]; [reflexivity|].
  rewrite app_cons. simpl. now rewrite IH, andb_assoc.
Qed.

End StringFacts.
Import StringFacts.

(** * Facts about [Ext] *)

Module ExtFacts.
Local Open Scope nat_scope.

(** one turn of the loop, at the character [c] that follows [pre] *)
Lemma Ext_loop_step (pre : string) (c : ascii) (suf : string) :
  Ext_loop (pre +:+ String c suf) (S (String.length pre)) =
  if IsPathSeparator c then ""
  else if Ascii.eqb c "." then String c suf
  else Ext_loop (pre +:+ String c suf) (String.length pre).
Proof.
  cbn [Ext_loop]. rewrite get_length.
  destruct (IsPathSeparator c); [reflexivity|].
  destruct (Ascii.eqb c "."); [|reflexivity].
  rewrite substring_app_r, length_app.
  replace (String.length pre + String.length (String c suf) - String.length pre)
    with (String.length (String c suf)) by lia.
  apply substring_0_length.
Qed.

(** the loop walks over characters that are neither dots nor separators *)
Lemma Ext_loop_plain (suf1 pre suf2 : string) :
  all plain suf1 = true ->
  Ext_loop (pre +:+ suf1 +:+ suf2) (String.length pre + String.length suf1) =
  Ext_loop (pre +:+ suf1 +:+ suf2) (String.length pre).
Proof.
  revert pre. induction suf1 as [|c r IH]; intros pre Hp.
  - simpl. now rewrite Nat.add_0_r.
  - simpl in Hp. apply andb_prop in Hp as [Hc Hr].
    rewrite app_cons.
    replace (pre +:+ String c (r +:+ suf2))
      with ((pre +:+ String c "") +:+ r +:+ suf2)
      by (now rewrite app_assoc, app_cons, app_nil_l).
    replace (String.length pre + String.length (String c r))
      with (String.length (pre +:+ String c "") + String.length r)
      by (rewrite length_app; simpl; lia).
    rewrite (IH _ Hr).
    rewrite length_app. simpl String.length. rewrite Nat.add_1_r.
    rewrite app_assoc, app_cons, app_nil_l, Ext_loop_step.
    unfold plain in Hc. apply andb_prop in Hc as [Hs Hd].
    apply negb_true_iff in Hs, Hd. now rewrite Hs, Hd.
Qed.

(** [Ext] of a name that ends with a dot and a plain suffix *)
Lemma Ext_app_dot (s r : string) :
  all plain r = true -> Ext (s +:+ "." +:+ r) = "." +:+ r.
Proof.
  intros Hr. unfold Ext.
  replace (s +:+ "." +:+ r) with ((s +:+ ".") +:+ r +:+ "")
    by (now rewrite app_empty_r, app_assoc).
  replace (String.length ((s +:+ ".") +:+ r +:+ ""))
    with (String.length (s +:+ ".") + String.length r)
    by (rewrite app_empty_r, !length_app; lia).
  rewrite (Ext_loop_plain _ _ _ Hr).
  rewrite app_empty_r, app_assoc, length_app. simpl String.length.
  rewrite Nat.add_1_r. rewrite app_cons, app_nil_l.
  now rewrite Ext_loop_step.
Qed.

Lemma Ext_loop_cases (pre : string) :
  forall suf, all plain suf = true ->
    Ext_loop (pre +:+ suf) (String.length pre) = "" \/
    exists s r, pre +:+ suf = s +:+ "." +:+ r /\ all plain r = true /\
                Ext_loop (pre +:+ suf) (String.length pre) = "." +:+ r.
Proof.
  induction pre as [|pre c IH] using snoc_ind; intros suf Hs.
  - left. reflexivity.
  - rewrite app_assoc, app_cons, app_nil_l, length_app.
    simpl String.length. rewrite Nat.add_1_r, Ext_loop_step.
    destruct (IsPathSeparator c) eqn:Hsep; [now left|].
    destruct (Ascii.eqb c ".") eqn:Hdot.
    + apply Ascii.eqb_eq in Hdot as ->. right. exists pre, suf. auto.
    + apply IH. cbn [all]. unfold plain. rewrite Hsep, Hdot. exact Hs.
Qed.

(** [Ext] is empty, or the name ends with it: a dot and a plain suffix *)
Lemma Ext_cases (path : string) :
  Ext path = "" \/
  exists s r, path = s +:+ "." +:+ r /\ all plain r = true /\ Ext path = "." +:+ r.
Proof.
  unfold Ext. destruct (Ext_loop_cases path "" eq_refl) as [H | H].
  - left. now rewrite app_empty_r in H.
  - right. now rewrite app_empty_r in H.
Qed.

Lemma stem_app_dot (s r : string) :
  all plain r = true -> stem (s +:+ "." +:+ r) = s.
Proof.
  intros Hr. unfold stem. rewrite (Ext_app_dot _ _ Hr), !length_app.
  replace (String.length s + (String.length "." + String.length r)
           - (String.length "." + String.length r))
    with (String.length s) by lia.
  apply substring_0_app.
Qed.

Lemma stem_noext (path : string) : Ext path = "" -> stem path = path.
Proof.
  intros H. unfold stem. rewrite H. simpl. rewrite Nat.sub_0_r.
  apply substring_0_length.
Qed.

Lemma stem_Ext (path : string) : stem path +:+ Ext path = path.
Proof.
  destruct (Ext_cases path) as [H | (s & r & -> & Hr & H)].
  - now rewrite (stem_noext _ H), H, app_empty_r.
  - now rewrite (stem_app_dot _ _ Hr), H.
Qed.

Lemma length_stem (path : string) :
  String.length path = String.length (stem path) + String.length (Ext path).
Proof. now rewrite <- length_app, stem_Ext. Qed.

Lemma slice_in_range (s : string) (lo hi : Z) :
  (0 <= lo)%Z -> (lo <= hi)%Z -> (hi <= len s)%Z ->
  slice s lo hi = Some (substring (Z.to_nat lo) (Z.to_nat (hi - lo)) s).
Proof.
  intros H1 H2 H3. unfold slice.
  apply Z.leb_le in H1, H2, H3. now rewrite H1, H2, H3.
Qed.

(** the slice [name[:len(name)-len(ext)]] is in range *)
Lemma slice_to_stem (name : string) :
  slice_to name (len name - len (Ext name)) = Some (stem name).
Proof.
  pose proof (length_stem name) as L.
  unfold slice_to. rewrite slice_in_range by (unfold len; lia).
  unfold stem, len. do 2 f_equal. lia.
Qed.

(** the slice [name[:len(name)-len(hashExt)-len(ext)]] is in range *)
Lemma slice_to_stem_stem (name : string) :
  slice_to name (len name - len (Ext (stem name)) - len (Ext name)) =
  Some (stem (stem name)).
Proof.
  pose proof (length_stem name) as L. pose proof (length_stem (stem name)) as L'.
  unfold slice_to. rewrite slice_in_range by (unfold len; lia).
  f_equal. unfold len.
  replace (Z.to_nat (Z.of_nat (String.length name)
             - Z.of_nat (String.length (Ext (stem name)))
             - Z.of_nat (String.length (Ext name)) - 0))
    with (String.length (stem (stem name))) by lia.
  change (Z.to_nat 0) with 0.
  generalize (stem_Ext name). generalize (stem_Ext (stem name)).
  generalize (stem (stem name)) as s, (Ext (stem name)) as e1.
  intros s e1 <- <-. rewrite app_assoc. apply substring_0_app.
Qed.

(** the slice [hashExt[1:]] of a non-empty string is in range *)
Lemma slice_from_tail (s : string) :
  s <> "" -> slice_from s 1 = Some (tail s).
Proof.
  destruct s as [|c r]; [congruence|]. intros _.
  unfold slice_from. rewrite slice_in_range by (unfold len; simpl String.length; lia).
  unfold len. simpl String.length. cbn [tail]. f_equal.
  replace (Z.to_nat 1) with 1 by reflexivity.
  replace (Z.to_nat (Z.of_nat (S (String.length r)) - 1)) with (String.length r) by lia.
  simpl. apply substring_0_length.
Qed.

(** and it panics on the empty string *)
Lemma slice_from_empty : slice_from "" 1 = None.
Proof. reflexivity. Qed.

End ExtFacts.
Import ExtFacts.

(** * Facts about digests *)

Module DigestFacts.
Local Open Scope nat_scope.

Lemma length_be_bytes (n : nat) (x : Z) : length (Sha256.be_bytes n x) = n.
Proof. unfold Sha256.be_bytes. now rewrite length_map, length_rev, length_seq. Qed.

(** [Sum256] returns 32 bytes, whatever the message *)
Lemma length_Sum256 (b : list Byte.byte) : length (Sum256 b) = 32.
Proof.
  unfold Sum256, Sha256.sum. rewrite length_map.
  generalize (Sha256.blocks
    (length (Sha256.pad (map byte_to_Z b)) / 64) Sha256.init
    (Sha256.pad (map byte_to_Z b))) as d.
  intros d. cbn [flat_map]. rewrite !List.length_app, !length_be_bytes. reflexivity.
Qed.

Lemma hexdigit_high (v : Byte.byte) :
  is_lower_hex (hexdigit (Z.shiftr (byte_to_Z v) 4)) = true.
Proof. destruct v; reflexivity. Qed.

Lemma hexdigit_low (v : Byte.byte) :
  is_lower_hex (hexdigit (Z.land (byte_to_Z v) 0x0f)) = true.
Proof. destruct v; reflexivity. Qed.

Lemma length_hex (src : list Byte.byte) :
  String.length (hex_EncodeToString src) = 2 * length src.
Proof. induction src as [|v src IH]; simpl; [reflexivity | rewrite IH; lia]. Qed.

Lemma all_hex (src : list Byte.byte) :
  all is_lower_hex (hex_EncodeToString src) = true.
Proof.
  induction src as [|v src IH]; [reflexivity|].
  cbn [hex_EncodeToString all]. now rewrite hexdigit_high, hexdigit_low, IH.
Qed.

(** what [makeHash] computes from the bytes of a file is a digest *)
Lemma digest_Sum256 (b : list Byte.byte) :
  is_digest (hex_EncodeToString (Sum256 b)).
Proof.
  split; [now rewrite length_hex, length_Sum256 | apply all_hex].
Qed.

Lemma lower_hex_plain (c : ascii) : is_lower_hex c = true -> plain c = true.
Proof.
  unfold is_lower_hex. intros H. apply existsb_exists in H as (x & Hin & Hx).
  apply Ascii.eqb_eq in Hx. subst x. cbn in Hin.
  repeat (destruct Hin as [<- | Hin]; [reflexivity|]). destruct Hin.
Qed.

Lemma all_impl (p q : ascii -> bool) (s : string) :
  (forall c, p c = true -> q c = true) -> all p s = true -> all q s = true.
Proof.
  intros Hpq. induction s as [|c s IH]; [reflexivity|]. cbn [all].
  intros H. apply andb_prop in H as [Hc Hs]. now rewrite (Hpq _ Hc), IH.
Qed.

Lemma digest_plain (d : string) : is_digest d -> all plain d = true.
Proof. intros [_ H]. exact (all_impl _ _ _ lower_hex_plain H). Qed.

Lemma digest_nonempty (d : string) : is_digest d -> d <> "".
Proof. intros [H _] ->. discriminate. Qed.

Lemma digest_of_cases (fsys : fsFS) (name : string) :
  (digest_of fsys name = "" /\ exists e, fs_ReadFile fsys name = Failed e) \/
  (is_digest (digest_of fsys name) /\
   exists b, fs_ReadFile fsys name = Ok b /\
             digest_of fsys name = hex_EncodeToString (Sum256 b)).
Proof.
  unfold digest_of. destruct (fs_ReadFile fsys name) as [b | e].
  - right. split; [apply digest_Sum256 | eauto].
  - left. eauto.
Qed.

Lemma digest_of_digest (fsys : fsFS) (name : string) :
  digest_of fsys name <> "" -> is_digest (digest_of fsys name).
Proof. destruct (digest_of_cases fsys name) as [[E _] | [H _]]; [congruence | auto]. Qed.

End DigestFacts.
Import DigestFacts.

(** * Facts about the naming rule *)

Module NameFacts.

Lemma dot_app (r : string) : "." +:+ r = String "." r.
Proof. reflexivity. Qed.

Lemma hashed_noext (p d : string) : Ext p = "" -> hashed p d = p +:+ "." +:+ d.
Proof.
  intros H. unfold hashed. now rewrite (stem_noext _ H), H, app_empty_r.
Qed.

(** [Open] takes a hashed name apart into the plain name and the digest *)
Lemma candidate_hashed (p d : string) :
  all plain d = true ->
  Ext (hashed p d) <> "" /\ candidate (hashed p d) = (p, "." +:+ d).
Proof.
  intros Hd. unfold candidate.
  destruct (Ext_cases p) as [H | (s & r & -> & Hr & H)].
  - rewrite (hashed_noext _ _ H), (Ext_app_dot _ _ Hd), (stem_app_dot _ _ Hd), H.
    split; [discriminate | reflexivity].
  - unfold hashed. rewrite H, (stem_app_dot _ _ Hr).
    replace (s +:+ "." +:+ d +:+ "." +:+ r) with ((s +:+ "." +:+ d) +:+ "." +:+ r)
      by (now rewrite !app_assoc).
    rewrite (Ext_app_dot _ _ Hr), (stem_app_dot _ _ Hr), (Ext_app_dot _ _ Hd),
      (stem_app_dot _ _ Hd).
    split; [discriminate | reflexivity].
Qed.

(** and what it takes a name apart into gives the name back *)
Lemma hashed_candidate (name b hx : string) :
  Ext name <> "" -> candidate name = (b, hx) ->
  hx = "." +:+ tail hx /\ all plain (tail hx) = true /\ hashed b (tail hx) = name.
Proof.
  intros Hext. unfold candidate.
  destruct (Ext_cases name) as [H | (s1 & r & -> & Hr & H)]; [congruence|].
  rewrite H, (stem_app_dot _ _ Hr).
  destruct (Ext_cases s1) as [H1 | (s2 & r2 & -> & Hr2 & H1)].
  - rewrite H1. cbn [String.eqb]. intros [= <- <-]. cbn [tail append].
    repeat split; [exact Hr|]. unfold hashed.
    now rewrite (stem_noext _ H1), H1, app_empty_r.
  - rewrite H1, (stem_app_dot _ _ Hr2). rewrite dot_app at 1. cbn [String.eqb].
    intros [= <- <-]. cbn [tail append].
    repeat split; [exact Hr2|]. unfold hashed.
    rewrite (Ext_app_dot _ _ Hr), (stem_app_dot _ _ Hr).
    now rewrite !app_assoc.
Qed.

Lemma hashed_inj (p d p' d' : string) :
  all plain d = true -> all plain d' = true ->
  hashed p d = hashed p' d' -> p = p' /\ d = d'.
Proof.
  intros Hd Hd' E.
  destruct (candidate_hashed p d Hd) as [_ C].
  destruct (candidate_hashed p' d' Hd') as [_ C'].
  rewrite E, C' in C. injection C as -> E'. rewrite !app_nil_l in E'.
  split; congruence.
Qed.

(** for one plain name, the hashed name determines the digest *)
Lemma hashed_inj_digest (p d d' : string) : hashed p d = hashed p d' -> d = d'.
Proof.
  unfold hashed. intros E. apply app_inv_head, app_inv_head in E.
  now apply app_inv_tail in E.
Qed.

Lemma hashed_nonempty (p d : string) : hashed p d <> "".
Proof.
  unfold hashed. intros E. apply (f_equal String.length) in E.
  rewrite !length_app in E. simpl in E. lia.
Qed.

End NameFacts.
Import NameFacts.

(** * The methods, case by case *)

Module MethodFacts.

Lemma makeHash_eq (name : string) (f : FS) :
  makeHash name f = Some (digest_of (fs f) name, f, [EvReadFile name]).
Proof.
  unfold makeHash, bind, ReadFile, digest_of.
  destruct (fs_ReadFile (fs f) name); reflexivity.
Qed.

Lemma Hash_eq (name : string) (f : FS) :
  Hash name f =
  match hash f !! name with
  | Some h => Some (h, f, [])
  | None =>
      let d := digest_of (fs f) name in
      if String.eqb d "" then Some ("", f, [EvReadFile name])
      else Some (d, put name d f, [EvReadFile name])
  end.
Proof.
  unfold Hash, bind, getHash.
  destruct (hash f !! name) as [h|]; [reflexivity|].
  rewrite makeHash_eq. cbv zeta.
  destruct (String.eqb (digest_of (fs f) name) ""); [reflexivity|].
  unfold sliced. rewrite slice_to_stem. reflexivity.
Qed.

Lemma Name_eq (name : string) (f : FS) :
  Name name f =
  match Hash name f with
  | None => None
  | Some (h, f', tr) =>
      if String.eqb h "" then Some ("", f', tr) else Some (hashed name h, f', tr)
  end.
Proof.
  unfold Name, bind.
  destruct (Hash name f) as [[[h f'] tr]|]; [|reflexivity].
  destruct (String.eqb h ""); cbn [ret]; rewrite ?app_nil_r; [reflexivity|].
  unfold sliced. rewrite slice_to_stem. cbn [app]. now rewrite app_nil_r.
Qed.

Lemma Open_eq (name : string) (f : FS) :
  Open name f =
  match base f !! name with
  | Some b => Some (fs f b, f, [EvOpen b])
  | None =>
      if String.eqb (Ext name) "" then Some (Failed (NotExist name), f, [])
      else
        let b := fst (candidate name) in
        let d := digest_of (fs f) b in
        if String.eqb d "" || negb (String.eqb (tail (snd (candidate name))) d)
        then Some (Failed (NotExist name), f, [EvReadFile b])
        else Some (fs f b,
                   mkFS (fs f) (<[b := d]> (hash f)) (<[name := b]> (base f)),
                   [EvReadFile b; EvOpen b])
  end.
Proof.
  unfold Open, bind, getBase.
  destruct (base f !! name) as [b|]; [reflexivity|].
  destruct (String.eqb (Ext name) "") eqn:Hext; [reflexivity|].
  apply String.eqb_neq in Hext.
  rewrite slice_to_stem. unfold sliced, ret. cbv beta iota zeta. unfold candidate.
  destruct (String.eqb (Ext (stem name)) "") eqn:Hhx.
  - cbv beta iota. rewrite makeHash_eq. cbv beta iota zeta. cbn [fst snd].
    destruct (String.eqb (digest_of (fs f) (stem name)) ""); [reflexivity|].
    rewrite (slice_from_tail _ Hext). cbn [orb].
    destruct (String.eqb (tail (Ext name)) _); reflexivity.
  - apply String.eqb_neq in Hhx.
    rewrite slice_to_stem_stem. cbv beta iota.
    rewrite makeHash_eq. cbv beta iota zeta. cbn [fst snd].
    destruct (String.eqb (digest_of (fs f) _) ""); [reflexivity|].
    rewrite (slice_from_tail _ Hhx). cbn [orb].
    destruct (String.eqb (tail (Ext (stem name))) _); reflexivity.
Qed.

End MethodFacts.
Import MethodFacts.

(** * What a step does to the two maps *)

Module StepFacts.

(** [Open] stores under the requested name, which is the hashed name *)
Lemma Open_put (name : string) (f : FS) :
  Ext name <> "" ->
  tail (snd (candidate name)) = digest_of (fs f) (fst (candidate name)) ->
  mkFS (fs f)
       (<[fst (candidate name) := digest_of (fs f) (fst (candidate name))]> (hash f))
       (<[name := fst (candidate name)]> (base f)) =
  put (fst (candidate name)) (digest_of (fs f) (fst (candidate name))) f.
Proof.
  intros Hext Ht. destruct (candidate name) as [b hx] eqn:Hc. cbn [fst snd] in *.
  destruct (hashed_candidate _ _ _ Hext Hc) as (_ & _ & Hn).
  unfold put. now rewrite <- Ht, Hn.
Qed.

(** A step leaves the adapter as it is, replaces the backing file system,
    or records the digest just computed for one plain name; [Hash] and
    [Name] record it only for a name that had none. *)
Lemma after_cases (s : step) (f f' : FS) :
  after s f = Some f' ->
  f' = f \/
  (exists fsys, s = Change fsys /\ f' = with_fs fsys f) \/
  (exists p, digest_of (fs f) p <> "" /\ f' = put p (digest_of (fs f) p) f /\
             (is_open s = false -> hash f !! p = None)).
Proof.
  destruct s as [name | name | name | fsys]; cbn [after].
  - rewrite Hash_eq. destruct (hash f !! name) as [h|] eqn:Hh.
    + intros [= <-]. now left.
    + cbv zeta. destruct (String.eqb _ "") eqn:Hd.
      * intros [= <-]. now left.
      * apply String.eqb_neq in Hd. intros [= <-]. right. right. eauto.
  - rewrite Name_eq, Hash_eq. destruct (hash f !! name) as [h|] eqn:Hh.
    + destruct (String.eqb h ""); intros [= <-]; now left.
    + cbv zeta. destruct (String.eqb _ "") eqn:Hd.
      * cbn. intros [= <-]. now left.
      * rewrite Hd. apply String.eqb_neq in Hd. intros [= <-]. right. right. eauto.
  - rewrite Open_eq. destruct (base f !! name) as [b|].
    + intros [= <-]. now left.
    + destruct (String.eqb (Ext name) "") eqn:Hext.
      * intros [= <-]. now left.
      * apply String.eqb_neq in Hext. cbv zeta.
        destruct (String.eqb (digest_of _ _) "") eqn:Hd; cbn [orb].
        -- intros [= <-]. now left.
        -- destruct (String.eqb (tail _) _) eqn:Ht; cbn [negb].
           ++ apply String.eqb_eq in Ht. apply String.eqb_neq in Hd.
              intros [= <-]. right. right.
              exists (fst (candidate name)). rewrite (Open_put _ _ Hext Ht).
              repeat split; [exact Hd | discriminate].
           ++ intros [= <-]. now left.
  - intros [= <-]. right. left. eauto.
Qed.

(** no step panics *)
Lemma after_total (s : step) (f : FS) : exists f', after s f = Some f'.
Proof.
  destruct s as [name | name | name | fsys]; cbn [after].
  - rewrite Hash_eq. destruct (hash f !! name); cbv zeta;
      [|destruct (String.eqb _ "")]; eauto.
  - rewrite Name_eq, Hash_eq. destruct (hash f !! name) as [h|]; cbv zeta.
    + destruct (String.eqb h ""); eauto.
    + destruct (String.eqb _ "") eqn:E; [cbn | rewrite E]; eauto.
  - rewrite Open_eq. destruct (base f !! name); [eauto|].
    destruct (String.eqb (Ext name) ""); [eauto|]. cbv zeta.
    destruct (_ || _); eauto.
  - eauto.
Qed.

Lemma run_total (steps : list step) (f : FS) : exists f', run f steps = Some f'.
Proof.
  revert f. induction steps as [|s steps IH]; intros f; cbn [run]; [eauto|].
  destruct (after_total s f) as [f1 ->]. apply IH.
Qed.

Lemma run_app (l1 l2 : list step) (f : FS) :
  run f (l1 ++ l2) =
  match run f l1 with
  | Some f1 => run f1 l2
  | None => None
  end.
Proof.
  revert f. induction l1 as [|s l1 IH]; intros f; cbn [run app]; [reflexivity|].
  destruct (after s f); [apply IH | reflexivity].
Qed.

End StepFacts.
Import StepFacts.

(** * Invariants of the two maps *)

Module Invariants.

Lemma consistent_New (fsys : fsFS) : consistent (New fsys).
Proof.
  split; cbn [New hash base].
  - intros p d H. now rewrite lookup_empty in H.
  - intros k p H. now rewrite lookup_empty in H.
Qed.

Lemma consistent_with_fs (fsys : fsFS) (f : FS) :
  consistent f -> consistent (with_fs fsys f).
Proof. intros H. exact H. Qed.

Lemma consistent_put (p d : string) (f : FS) :
  is_digest d -> consistent f -> consistent (put p d f).
Proof.
  intros Hd [H1 H2]. split; cbn [put hash base].
  - intros q e Hq. destruct (decide (p = q)) as [<- | Hne].
    + rewrite lookup_insert_eq in Hq. injection Hq as <-.
      split; [exact Hd | apply lookup_insert_eq].
    + rewrite lookup_insert_ne in Hq by exact Hne.
      destruct (H1 _ _ Hq) as [He Hb]. split; [exact He|].
      rewrite lookup_insert_ne; [exact Hb|].
      intros E. apply hashed_inj in E as [E _]; auto using digest_plain.
  - intros k q Hk. destruct (decide (hashed p d = k)) as [<- | Hne].
    + rewrite lookup_insert_eq in Hk. injection Hk as <-.
      exists d. split; [exact Hd|]. split; [reflexivity|].
      rewrite lookup_insert_eq. eauto.
    + rewrite lookup_insert_ne in Hk by exact Hne.
      destruct (H2 _ _ Hk) as (e & He & -> & Hs). exists e.
      split; [exact He|]. split; [reflexivity|].
      apply lookup_insert_is_Some'. now right.
Qed.

Lemma consistent_after (s : step) (f f' : FS) :
  consistent f -> after s f = Some f' -> consistent f'.
Proof.
  intros Hc Ha.
  destruct (after_cases _ _ _ Ha) as [-> | [(fsys & _ & ->) | (p & Hd & -> & _)]].
  - exact Hc.
  - exact Hc.
  - apply consistent_put; [now apply digest_of_digest | exact Hc].
Qed.

Lemma consistent_run (steps : list step) (f f' : FS) :
  consistent f -> run f steps = Some f' -> consistent f'.
Proof.
  revert f. induction steps as [|s steps IH]; intros f Hc; cbn [run].
  - now intros [= <-].
  - destruct (after s f) as [f1|] eqn:Ha; [|discriminate].
    apply IH. exact (consistent_after _ _ _ Hc Ha).
Qed.

Lemma reachable_consistent (f : FS) : reachable f -> consistent f.
Proof.
  intros (fsys & steps & H). exact (consistent_run _ _ _ (consistent_New fsys) H).
Qed.

Lemma reachable_run (steps : list step) (f f' : FS) :
  reachable f -> run f steps = Some f' -> reachable f'.
Proof.
  intros (fsys & steps0 & H0) H. exists fsys, (steps0 ++ steps).
  now rewrite run_app, H0.
Qed.

(** a name of the base map keeps its plain name when a digest is recorded *)
Lemma put_base_keeps (p d k q : string) (f : FS) :
  is_digest d -> consistent f ->
  base f !! k = Some q -> base (put p d f) !! k = Some q.
Proof.
  intros Hd [_ H2] Hk. cbn [put base].
  destruct (decide (hashed p d = k)) as [<- | Hne].
  - destruct (H2 _ _ Hk) as (e & He & E & _).
    apply hashed_inj in E as [-> _]; auto using digest_plain.
    apply lookup_insert_eq.
  - now rewrite lookup_insert_ne.
Qed.

Lemma fresh_put (fsys : fsFS) (p : string) (f : FS) :
  fresh fsys f -> fresh fsys (put p (digest_of fsys p) f).
Proof.
  intros H q e. cbn [put hash]. destruct (decide (p = q)) as [<- | Hne].
  - rewrite lookup_insert_eq. now intros [= <-].
  - rewrite lookup_insert_ne by exact Hne. apply H.
Qed.

Lemma agree_put (p d : string) (f : FS) :
  agree f -> (forall e, hash f !! p = Some e -> e = d) -> agree (put p d f).
Proof.
  intros H Hp k q. cbn [put hash base].
  destruct (decide (hashed p d = k)) as [<- | Hne].
  - rewrite lookup_insert_eq. intros [= <-]. exists d.
    split; [reflexivity | apply lookup_insert_eq].
  - rewrite lookup_insert_ne by exact Hne. intros Hk.
    destruct (H _ _ Hk) as (e & -> & He). exists e. split; [reflexivity|].
    destruct (decide (p = q)) as [<- | Hpq].
    + rewrite (Hp _ He) in Hne. congruence.
    + now rewrite lookup_insert_ne.
Qed.

Lemma agree_New (fsys : fsFS) : agree (New fsys).
Proof. intros k p H. cbn [New base] in H. now rewrite lookup_empty in H. Qed.

Lemma fresh_New (fsys : fsFS) : fresh fsys (New fsys).
Proof. intros p d H. cbn [New hash] in H. now rewrite lookup_empty in H. Qed.

(** one call while the backing file system stays the same: the cached
    digests stay those of the files as they are, none changes, and the two
    maps go on agreeing exactly *)
Lemma quiet_after (s : step) (f f' : FS) :
  is_change s = false -> fresh (fs f) f -> agree f ->
  after s f = Some f' ->
  fs f' = fs f /\ fresh (fs f') f' /\ agree f' /\
  (forall p d, hash f !! p = Some d -> hash f' !! p = Some d).
Proof.
  intros Hs Hf Ha H1.
  destruct (after_cases _ _ _ H1) as [-> | [(fsys & -> & _) | (p & Hd & -> & _)]].
  - auto.
  - discriminate.
  - cbn [put fs]. split; [reflexivity|]. split; [now apply fresh_put|].
    split; [apply agree_put; [exact Ha|]; intros e He; exact (Hf _ _ He)|].
    intros q e Hq. cbn [put hash]. destruct (decide (p = q)) as [<- | Hne].
    + rewrite lookup_insert_eq. now rewrite (Hf _ _ Hq).
    + now rewrite lookup_insert_ne.
Qed.

Lemma quiet_run (steps : list step) (f f' : FS) :
  quiet steps = true -> fresh (fs f) f -> agree f ->
  run f steps = Some f' ->
  fs f' = fs f /\ fresh (fs f') f' /\ agree f' /\
  (forall p d, hash f !! p = Some d -> hash f' !! p = Some d).
Proof.
  revert f. induction steps as [|s steps IH]; intros f Hq Hf Ha; cbn [run].
  - now intros [= <-].
  - cbn [quiet forallb] in Hq. apply andb_prop in Hq as [Hs Hq].
    apply negb_true_iff in Hs.
    destruct (after s f) as [f1|] eqn:H1; [|discriminate]. intros Hr.
    destruct (quiet_after _ _ _ Hs Hf Ha H1) as (E & Hf1 & Ha1 & Hk1).
    destruct (IH f1 Hq Hf1 Ha1 Hr) as (E' & Hf' & Ha' & Hk').
    split; [congruence|]. auto.
Qed.

(** one step that is not a call of [Open]: no cached digest changes, and
    the two maps go on agreeing exactly *)
Lemma no_open_after (s : step) (f f' : FS) :
  is_open s = false -> after s f = Some f' ->
  (agree f -> agree f') /\
  (forall p d, hash f !! p = Some d -> hash f' !! p = Some d).
Proof.
  intros Hs H1.
  destruct (after_cases _ _ _ H1) as [-> | [(fsys & _ & ->) | (p & Hd & -> & Hn)]].
  - auto.
  - auto.
  - specialize (Hn Hs). split.
    + intros Ha. apply agree_put; [exact Ha|]. intros e He. congruence.
    + intros q e Hq. cbn [put hash]. rewrite lookup_insert_ne; [exact Hq | congruence].
Qed.

Lemma no_open_run (steps : list step) (f f' : FS) :
  no_open steps = true -> run f steps = Some f' ->
  (agree f -> agree f') /\
  (forall p d, hash f !! p = Some d -> hash f' !! p = Some d).
Proof.
  revert f. induction steps as [|s steps IH]; intros f Hq; cbn [run].
  - now intros [= <-].
  - cbn [no_open forallb] in Hq. apply andb_prop in Hq as [Hs Hq].
    apply negb_true_iff in Hs.
    destruct (after s f) as [f1|] eqn:H1; [|discriminate]. intros Hr.
    destruct (no_open_after _ _ _ Hs H1) as (Ha1 & Hk1).
    destruct (IH f1 Hq Hr) as (Ha' & Hk'). auto.
Qed.

(** the two maps only grow *)
Lemma grows_after (s : step) (f f' : FS) :
  consistent f -> after s f = Some f' ->
  dom (hash f) ⊆ dom (hash f') /\ base f ⊆ base f'.
Proof.
  intros Hc H1.
  destruct (after_cases _ _ _ H1) as [-> | [(fsys & _ & ->) | (p & Hd & -> & _)]].
  - auto.
  - auto.
  - cbn [put hash base]. split.
    + rewrite dom_insert. set_solver.
    + apply map_subseteq_spec. intros k q Hk.
      exact (put_base_keeps _ _ _ _ _ (digest_of_digest _ _ Hd) Hc Hk).
Qed.

Lemma grows_run (steps : list step) (f f' : FS) :
  consistent f -> run f steps = Some f' ->
  dom (hash f) ⊆ dom (hash f') /\ base f ⊆ base f'.
Proof.
  revert f. induction steps as [|s steps IH]; intros f Hc; cbn [run].
  - now intros [= <-].
  - destruct (after s f) as [f1|] eqn:H1; [|discriminate]. intros Hr.
    destruct (grows_after _ _ _ Hc H1) as [Hd Hb].
    destruct (IH f1 (consistent_after _ _ _ Hc H1) Hr) as [Hd' Hb'].
    split; [now transitivity (dom (hash f1)) | now transitivity (base f1)].
Qed.





Lemma coherent_of (f : FS) : consistent f -> agree f -> coherent f.
Proof.
  intros [H1 _] Ha p d. split.
  - intros H. now apply H1.
  - intros H. destruct (Ha _ _ H) as (e & E & He).
    now rewrite (hashed_inj_digest _ _ _ E).
Qed.

End Invariants.
Import Invariants.


(** * The tests of the repository ([TestHash], [TestHashPathError], [TestOpen], [TestOpenPathError]) *)

Module RepositoryTests.
Import Tests.

(** two test vectors of FIPS 180 *)
Example Sum256_empty :
  hex_EncodeToString (Sum256 []) =
  "e3b0c44298fc1c149afbf4c8996fb92427ae41e4649b934ca495991b7852b855".
Proof. vm_compute. reflexivity. Qed.

Example Sum256_abc :
  hex_EncodeToString (Sum256 (list_byte_of_string "abc")) =
  "ba7816bf8f01cfea414140de5dae2223b00361a396177a9cb410ff61f20015ad".
Proof. vm_compute. reflexivity. Qed.

Example Ext_examples :
  Ext "testdata/base.ext" = ".ext" /\ Ext "testdata/noext" = "" /\
  Ext "a.b/c" = "" /\ Ext "archive.tar.gz" = ".gz" /\ Ext "notes." = ".".
Proof. repeat split. Qed.

Example TestHash_base :
  value (Hash "testdata/base.ext" (New testdata)) = Some base_hash /\
  value (Name "testdata/base.ext" (New testdata)) =
    Some ("testdata/base." +:+ base_hash +:+ ".ext").
Proof. split; vm_compute; reflexivity. Qed.

Example TestHash_noext :
  value (Hash "testdata/noext" (New testdata)) = Some noext_hash /\
  value (Name "testdata/noext" (New testdata)) = Some ("testdata/noext." +:+ noext_hash).
Proof. split; vm_compute; reflexivity. Qed.

Example TestHashPathError : value (Hash "not-found" (New testdata)) = Some "".
Proof. vm_compute. reflexivity. Qed.

Example TestOpen :
  succeeds (Open ("testdata/base." +:+ base_hash +:+ ".ext") (New testdata)) = true /\
  succeeds (Open ("testdata/noext." +:+ noext_hash) (New testdata)) = true.
Proof. split; vm_compute; reflexivity. Qed.

Example TestOpenPathError :
  forallb (fun name => fails (Open name (New testdata)))
    ["testdata/base.ext"; "testdata/base." +:+ wrong_hash +:+ ".ext";
     "testdata/noext"; "testdata/noext." +:+ wrong_hash] = true.
Proof. vm_compute. reflexivity. Qed.

End RepositoryTests.

(** * The properties of the specification *)

(** C4.  Whatever the adapter, when [Hash name] returns [d], [Name name]
    returns, with the same effects, the empty string if [d] is empty and
    otherwise [stem + "." + d + ext], where [ext] is [filepath.Ext(name)] and
    [stem] is [name] without it; this is [name + "." + d] when [name] has no
    extension.  [Name] returns the empty string exactly when [Hash] does, and
    it returns the same again when called after that call of [Hash]. *)
Theorem Name_naming_rule (f : FS) (name d : string) (f' : FS) (tr : list event) :
  Hash name f = Some (d, f', tr) ->
  exists n,
    Name name f = Some (n, f', tr) /\
    (exists tr', Name name f' = Some (n, f', tr')) /\
    stem name +:+ Ext name = name /\
    (d <> "" -> n = stem name +:+ "." +:+ d +:+ Ext name) /\
    (d <> "" -> Ext name = "" -> n = name +:+ "." +:+ d) /\
    (n = "" <-> d = "").
Proof.
  intros H.
  set (n := if String.eqb d "" then "" else hashed name d).
  assert (Hn : Name name f = Some (n, f', tr)).
  { rewrite Name_eq, H. unfold n. now destruct (String.eqb d ""). }
  assert (Hn' : exists tr', Name name f' = Some (n, f', tr')).
  { rewrite Name_eq. rewrite Hash_eq in H |- *.
    destruct (hash f !! name) as [h|] eqn:Hh.
    - injection H as -> <- <-. rewrite Hh. unfold n.
      destruct (String.eqb d ""); eauto.
    - cbv zeta in H. destruct (String.eqb (digest_of (fs f) name) "") eqn:Hd.
      + injection H as <- <- <-. rewrite Hh. cbv zeta. rewrite Hd. cbn. eauto.
      + injection H as <- <- <-. cbn [put hash]. rewrite lookup_insert_eq.
        unfold n. rewrite Hd. eauto. }
  exists n. split; [exact Hn|]. split; [exact Hn'|].
  split; [apply stem_Ext|]. unfold n.
  destruct (String.eqb d "") eqn:Hd.
  - apply String.eqb_eq in Hd. repeat split; congruence.
  - apply String.eqb_neq in Hd. split; [reflexivity|].
    split; [intros _ He; now apply hashed_noext|].
    split; [intros E; now apply hashed_nonempty in E | congruence].
Qed.

Lemma Name_naming_rule_witness :
  Hash "testdata/base.ext" (New testdata) =
    Some (Tests.base_hash, put "testdata/base.ext" Tests.base_hash (New testdata),
          [EvReadFile "testdata/base.ext"]) /\
  exists n,
    Name "testdata/base.ext" (New testdata) =
      Some (n, put "testdata/base.ext" Tests.base_hash (New testdata),
            [EvReadFile "testdata/base.ext"]) /\
    (Tests.base_hash <> "" -> n = "testdata/base" +:+ "." +:+ Tests.base_hash +:+ ".ext").
Proof.
  assert (H : Hash "testdata/base.ext" (New testdata) =
    Some (Tests.base_hash, put "testdata/base.ext" Tests.base_hash (New testdata),
          [EvReadFile "testdata/base.ext"])) by (vm_compute; reflexivity).
  split; [exact H|].
  destruct (Name_naming_rule _ _ _ _ _ H) as (n & Hn & _ & _ & Hr & _).
  exists n. split; [exact Hn|]. intros Hne. rewrite (Hr Hne). vm_compute. reflexivity.
Defined.

(** C5.  For an adapter reached by any history and a name [p] whose file
    the backing file system can read now, [Name p] followed by [Open] of the
    name it returned succeeds, and the file opened reads as the bytes the
    backing file system has for [p]. *)
Theorem Open_of_Name (f : FS) (p : string) (b : list Byte.byte) :
  reachable f ->
  fs_ReadFile (fs f) p = Ok b ->
  exists n f1 t1 file f2 t2,
    Name p f = Some (n, f1, t1) /\
    Open n f1 = Some (Ok file, f2, t2) /\
    ReadAll file = Ok b.
Proof.
  intros Hr Hb. destruct (reachable_consistent _ Hr) as [H1 _].
  assert (Hfile : exists file, fs f p = Ok file /\ ReadAll file = Ok b).
  { unfold fs_ReadFile in Hb. destruct (fs f p) as [file|e]; [eauto | discriminate]. }
  destruct Hfile as (file & Hfile & Hread).
  rewrite Name_eq, Hash_eq. destruct (hash f !! p) as [d|] eqn:Hd.
  - destruct (H1 _ _ Hd) as [Hdig Hbase].
    apply digest_nonempty, String.eqb_neq in Hdig. rewrite Hdig.
    exists (hashed p d), f, [], file, f, [EvOpen p].
    split; [reflexivity|]. rewrite Open_eq, Hbase, Hfile. auto.
  - cbv zeta. assert (Hne : digest_of (fs f) p <> "").
    { unfold digest_of. rewrite Hb. apply digest_nonempty, digest_Sum256. }
    apply String.eqb_neq in Hne. rewrite !Hne.
    exists (hashed p (digest_of (fs f) p)), (put p (digest_of (fs f) p) f),
      [EvReadFile p], file, (put p (digest_of (fs f) p) f), [EvOpen p].
    split; [reflexivity|]. rewrite Open_eq. cbn [put base fs].
    rewrite lookup_insert_eq, Hfile. auto.
Qed.

Lemma Open_of_Name_witness :
  exists n f1 t1 file f2 t2,
    Name "testdata/noext" (New testdata) = Some (n, f1, t1) /\
    Open n f1 = Some (Ok file, f2, t2) /\
    ReadAll file = Ok (line "noext").
Proof.
  apply (Open_of_Name (New testdata) "testdata/noext" (line "noext")).
  - exists testdata, []. reflexivity.
  - vm_compute. reflexivity.
Defined.



(** C10 [as amended].  [Open] returns for every name and every adapter: no
    slice expression is out of range.  The slice [hashExt[1:]] is taken of a
    non-empty extension, which begins with a dot.  For an adapter reached by
    any history and a name whose extension is a bare dot and which has no
    other extension before it, the digest taken from the name is empty and
    [Open] fails with the not-exist error. *)
Theorem Open_never_panics (f : FS) (name : string) :
  (exists r f' tr, Open name f = Some (r, f', tr)) /\
  (Ext name <> "" ->
     exists t, snd (candidate name) = "." +:+ t /\
               slice_from (snd (candidate name)) 1 = Some t) /\
  (reachable f -> Ext name = "." -> Ext (stem name) = "" ->
     tail (snd (candidate name)) = "" /\
     exists tr, Open name f = Some (Failed (NotExist name), f, tr)).
Proof.
  split; [|split].
  - rewrite Open_eq. destruct (base f !! name); [eauto|].
    destruct (String.eqb (Ext name) ""); [eauto|]. cbv zeta.
    destruct (_ || _); eauto.
  - intros Hext. destruct (candidate name) as [b hx] eqn:Hc.
    destruct (hashed_candidate _ _ _ Hext Hc) as (Hhx & _ & _). cbn [snd].
    exists (tail hx). split; [exact Hhx|]. apply slice_from_tail.
    rewrite Hhx. discriminate.
  - intros Hr Hdot Hstem.
    assert (Hc : candidate name = (stem name, ".")).
    { unfold candidate. now rewrite Hstem, Hdot. }
    rewrite Hc. cbn [snd tail]. split; [reflexivity|].
    assert (Hmiss : base f !! name = None).
    { destruct (base f !! name) as [p|] eqn:Hb; [|reflexivity]. exfalso.
      destruct (reachable_consistent _ Hr) as [_ H2].
      destruct (H2 _ _ Hb) as (d & Hd & E & _).
      destruct (candidate_hashed p d (digest_plain _ Hd)) as [_ C].
      rewrite <- E, Hc in C. injection C as _ C. rewrite app_nil_l in C.
      apply (digest_nonempty _ Hd). congruence. }
    rewrite Open_eq, Hmiss, Hdot, Hc. change (String.eqb "." "") with false.
    cbv zeta. cbn [fst snd tail].
    destruct (String.eqb (digest_of (fs f) (stem name)) "") eqn:Hd; cbn [orb]; [eauto|].
    apply String.eqb_neq in Hd.
    destruct (String.eqb "" (digest_of (fs f) (stem name))) eqn:Hd'; cbn [negb]; [|eauto].
    apply String.eqb_eq in Hd'. congruence.
Qed.

Lemma Open_never_panics_witness :
  tail (snd (candidate "testdata/noext.")) = "" /\
  exists tr, Open "testdata/noext." (New testdata) =
             Some (Failed (NotExist "testdata/noext."), New testdata, tr).
Proof.
  apply (Open_never_panics (New testdata) "testdata/noext.").
  - exists testdata, []. reflexivity.
  - vm_compute. reflexivity.
  - vm_compute. reflexivity.
Defined.

(** C10, as stated, fails: the name [notes.<digest>.] ends with a bare dot,
    yet the digest taken from it is not empty and [Open] succeeds, the file
    [notes.] having that digest. *)
Lemma Open_trailing_dot_succeeds :
  Ext Scenario.dot_name = "." /\
  tail (snd (candidate Scenario.dot_name)) = Scenario.old_hash /\
  Open Scenario.dot_name (New Scenario.dot_fs) =
    Some (Ok (mkFile (Ok (line "old"))),
          put "notes." Scenario.old_hash (New Scenario.dot_fs),
          [EvReadFile "notes."; EvOpen "notes."]).
Proof. repeat split; vm_compute; reflexivity. Qed.




(** C7 [as amended].  For an adapter reached by any history, a second call
    of [Hash] for the same name, the backing file system being the same,
    returns what the first call returned.  When that is a digest, the second
    call makes no call to the backing file system, even one that has changed
    since; when it is the empty string, nothing was recorded and the second
    call reads the file again. *)
Theorem Hash_twice (f : FS) (name d : string) (f1 : FS) (t1 : list event) :
  reachable f ->
  Hash name f = Some (d, f1, t1) ->
  fs f1 = fs f /\
  exists t2,
    Hash name f1 = Some (d, f1, t2) /\
    (d <> "" ->
       t2 = [] /\
       forall fsys, Hash name (with_fs fsys f1) = Some (d, with_fs fsys f1, [])) /\
    (d = "" -> f1 = f /\ t2 = [EvReadFile name]).
Proof.
  intros Hr. destruct (reachable_consistent _ Hr) as [H1 _].
  rewrite Hash_eq. destruct (hash f !! name) as [h|] eqn:Hh.
  - intros [= <- <- <-]. split; [reflexivity|]. exists [].
    rewrite Hash_eq, Hh. split; [reflexivity|]. split.
    + intros _. split; [reflexivity|]. intros fsys.
      rewrite Hash_eq. cbn [with_fs hash]. now rewrite Hh.
    + intros ->. destruct (H1 _ _ Hh) as [Hd _]. now apply digest_nonempty in Hd.
  - cbv zeta. destruct (String.eqb (digest_of (fs f) name) "") eqn:Hd.
    + intros [= <- <- <-]. split; [reflexivity|]. exists [EvReadFile name].
      rewrite Hash_eq, Hh. cbv zeta. rewrite Hd.
      split; [reflexivity|]. split; [congruence | auto].
    + intros [= <- <- <-]. split; [reflexivity|]. exists [].
      rewrite Hash_eq. cbn [put hash]. rewrite lookup_insert_eq.
      split; [reflexivity|]. apply String.eqb_neq in Hd. split; [|congruence].
      intros _. split; [reflexivity|]. intros fsys.
      rewrite Hash_eq. cbn [with_fs put hash]. now rewrite lookup_insert_eq.
Qed.

Lemma Hash_twice_witness :
  exists t2,
    Hash "testdata/noext" (put "testdata/noext" Tests.noext_hash (New testdata)) =
      Some (Tests.noext_hash, put "testdata/noext" Tests.noext_hash (New testdata), t2) /\
    (Tests.noext_hash <> "" -> t2 = []).
Proof.
  assert (Hr : reachable (New testdata)) by (exists testdata, []; reflexivity).
  assert (H : Hash "testdata/noext" (New testdata) =
    Some (Tests.noext_hash, put "testdata/noext" Tests.noext_hash (New testdata),
          [EvReadFile "testdata/noext"])) by (vm_compute; reflexivity).
  destruct (Hash_twice _ _ _ _ _ Hr H) as (_ & t2 & H2 & Hd & _).
  exists t2. split; [exact H2|]. intros Hne. exact (proj1 (Hd Hne)).
Defined.

(** C7, as stated, fails: [Hash] of a name that cannot be read returns the
    empty string and records nothing, so the second call reads the backing
    file system again. *)
Lemma Hash_failed_reads_again :
  Hash "not-found" (New testdata) =
    Some ("", New testdata, [EvReadFile "not-found"]) /\
  match Hash "not-found" (New testdata) with
  | Some (_, f1, _) => Hash "not-found" f1 = Some ("", f1, [EvReadFile "not-found"])
  | None => False
  end.
Proof. split; vm_compute; reflexivity. Qed.




(** C2 [as amended].  After any history that started with [New]: a cached
    digest [d] of [p] has [hashed p d] in the base map, for [p]; a name of
    the base map is the hashed name of its plain name for some digest, and
    that plain name has a cached digest.  The two maps agree exactly, in
    both directions, as long as the backing file system has not changed, or
    [Open] has not been called.  Every step leaves both maps as they were or
    inserts one entry into each of them. *)
Theorem maps_consistent (fsys : fsFS) (steps : list step) (f : FS) :
  run (New fsys) steps = Some f ->
  (forall p d, hash f !! p = Some d -> base f !! hashed p d = Some p) /\
  (forall k p, base f !! k = Some p ->
     exists d, is_digest d /\ k = hashed p d /\ is_Some (hash f !! p)) /\
  (quiet steps = true -> coherent f) /\
  (no_open steps = true -> coherent f) /\
  (forall s f', after s f = Some f' ->
     (hash f' = hash f /\ base f' = base f) \/
     (exists p d, hash f' = <[p := d]> (hash f) /\
                  base f' = <[hashed p d := p]> (base f))).
Proof.
  intros Hrun.
  pose proof (consistent_run _ _ _ (consistent_New fsys) Hrun) as Hc.
  split; [intros p d H; now apply Hc|]. split; [apply Hc|].
  split; [|split].
  - intros Hq.
    destruct (quiet_run _ _ _ Hq (fresh_New fsys) (agree_New fsys) Hrun)
      as (_ & _ & Ha & _).
    now apply coherent_of.
  - intros Hq. destruct (no_open_run _ _ _ Hq Hrun) as [Ha _].
    apply coherent_of; [exact Hc | apply Ha, agree_New].
  - intros s f' H1.
    destruct (after_cases _ _ _ H1) as [-> | [(w & _ & ->) | (p & _ & -> & _)]].
    + now left.
    + now left.
    + right. now exists p, (digest_of (fs f) p).
Qed.

Lemma maps_consistent_witness :
  run (New Scenario.old_fs)
      [CallHash "app.css"; Change Scenario.new_fs; CallOpen Scenario.new_name] =
    Some Scenario.reopened /\
  base Scenario.reopened !! hashed "app.css" Scenario.new_hash = Some "app.css".
Proof.
  assert (H : run (New Scenario.old_fs)
                [CallHash "app.css"; Change Scenario.new_fs; CallOpen Scenario.new_name]
              = Some Scenario.reopened) by (vm_compute; reflexivity).
  split; [exact H|].
  apply (proj1 (maps_consistent _ _ _ H)). vm_compute. reflexivity.
Defined.

(** C2, as stated, fails: [Hash("app.css")], a change of the file, then
    [Open] of the name with the new digest leave the old hashed name in the
    base map, for [app.css], while the digest cached for [app.css] is the
    new one. *)
Lemma maps_disagree_after_change :
  run (New Scenario.old_fs)
      [CallHash "app.css"; Change Scenario.new_fs; CallOpen Scenario.new_name] =
    Some Scenario.reopened /\
  base Scenario.reopened !! hashed "app.css" Scenario.old_hash = Some "app.css" /\
  hash Scenario.reopened !! "app.css" = Some Scenario.new_hash /\
  ~ coherent Scenario.reopened.
Proof.
  assert (Hb : base Scenario.reopened !! hashed "app.css" Scenario.old_hash
               = Some "app.css") by (vm_compute; reflexivity).
  assert (Hh : hash Scenario.reopened !! "app.css" = Some Scenario.new_hash)
    by (vm_compute; reflexivity).
  split; [vm_compute; reflexivity|]. split; [exact Hb|]. split; [exact Hh|].
  intros Hco. apply Hco in Hb. rewrite Hh in Hb. discriminate.
Qed.

(** C3 [as amended].  After any history that started with [New], a plain
    name with a cached digest keeps a cached digest through any further
    history, and both maps only grow.  The cached digest keeps its value as
    long as [Open] is not called, and as long as the backing file system does
    not change; [Hash] returns a cached digest without reading the file. *)
Theorem digest_cache_grows (fsys : fsFS) (steps0 steps : list step)
    (f f' : FS) (p d : string) :
  run (New fsys) steps0 = Some f ->
  run f steps = Some f' ->
  hash f !! p = Some d ->
  is_Some (hash f' !! p) /\
  dom (hash f) ⊆ dom (hash f') /\
  base f ⊆ base f' /\
  (no_open steps = true -> hash f' !! p = Some d) /\
  (quiet (steps0 ++ steps) = true -> hash f' !! p = Some d) /\
  (forall c, hash f' !! p = Some c -> Hash p f' = Some (c, f', [])).
Proof.
  intros H0 Hrun Hp.
  pose proof (consistent_run _ _ _ (consistent_New fsys) H0) as Hc.
  destruct (grows_run _ _ _ Hc Hrun) as [Hdom Hbase].
  split. { apply elem_of_dom, Hdom, elem_of_dom. eauto. }
  split; [exact Hdom|]. split; [exact Hbase|]. split; [|split].
  - intros Hq. destruct (no_open_run _ _ _ Hq Hrun) as [_ Hk]. now apply Hk.
  - intros Hq. unfold quiet in Hq. rewrite forallb_app in Hq.
    apply andb_prop in Hq as [Hq0 Hq].
    destruct (quiet_run _ _ _ Hq0 (fresh_New fsys) (agree_New fsys) H0)
      as (_ & Hf & Ha & _).
    destruct (quiet_run _ _ _ Hq Hf Ha Hrun) as (_ & _ & _ & Hk). now apply Hk.
  - intros c Hc'. now rewrite Hash_eq, Hc'.
Qed.

Lemma digest_cache_grows_witness :
  is_Some (hash Scenario.reopened !! "app.css") /\
  base Scenario.cached ⊆ base Scenario.reopened.
Proof.
  assert (H0 : run (New Scenario.old_fs) [CallHash "app.css"] = Some Scenario.cached)
    by (vm_compute; reflexivity).
  assert (H1 : run Scenario.cached
                 [Change Scenario.new_fs; CallOpen Scenario.new_name]
               = Some Scenario.reopened) by (vm_compute; reflexivity).
  assert (Hp : hash Scenario.cached !! "app.css" = Some Scenario.old_hash)
    by (vm_compute; reflexivity).
  destruct (digest_cache_grows _ _ _ _ _ _ _ H0 H1 Hp) as (Hs & _ & Hb & _).
  split; [exact Hs | exact Hb].
Defined.

(** C3, as stated, fails: the digest cached for [app.css] is replaced, in
    place, by the call of [Open] that validates the name with the new
    digest after the file has changed; and with the file unchanged, [Open]
    computes the digest of the cached name once more. *)
Lemma cached_digest_updated_in_place :
  run (New Scenario.old_fs) [CallHash "app.css"] = Some Scenario.cached /\
  hash Scenario.cached !! "app.css" = Some Scenario.old_hash /\
  run Scenario.cached [Change Scenario.new_fs; CallOpen Scenario.new_name] =
    Some Scenario.reopened /\
  hash Scenario.reopened !! "app.css" = Some Scenario.new_hash /\
  Scenario.new_hash <> Scenario.old_hash /\
  Open "app.0.css" Scenario.cached =
    Some (Failed (NotExist "app.0.css"), Scenario.cached, [EvReadFile "app.css"]).
Proof.
  repeat split; try (vm_compute; reflexivity). discriminate.
Qed.




(** * Further facts about names and calls *)

Module MoreFacts.
Local Open Scope nat_scope.

Lemma Ext_of_plain (r : string) : all plain r = true -> Ext r = "".
Proof.
  intros Hr. unfold Ext.
  pose proof (Ext_loop_plain r "" "" Hr) as H.
  rewrite app_nil_l, app_empty_r in H. cbn [String.length Nat.add] in H.
  now rewrite H.
Qed.

(** the loop of [Ext] stops at the separator *)
Lemma Ext_after_sep (dir r : string) :
  all plain r = true -> Ext (dir +:+ "/" +:+ r) = "".
Proof.
  intros Hr. unfold Ext.
  replace (dir +:+ "/" +:+ r) with ((dir +:+ "/") +:+ r +:+ "")
    by (now rewrite app_empty_r, app_assoc).
  replace (String.length ((dir +:+ "/") +:+ r +:+ ""))
    with (String.length (dir +:+ "/") + String.length r)
    by (rewrite app_empty_r, !length_app; lia).
  rewrite (Ext_loop_plain _ _ _ Hr).
  rewrite app_empty_r, app_assoc, length_app. simpl String.length.
  rewrite Nat.add_1_r. rewrite app_cons, app_nil_l.
  now rewrite Ext_loop_step.
Qed.

(** a path element has no dot, or ends with a dot and a plain suffix *)
Lemma noslash_cases (file : string) :
  all noslash file = true ->
  all plain file = true \/
  exists s r, file = s +:+ "." +:+ r /\ all plain r = true.
Proof.
  induction file as [|c rest IH]; [now left|].
  cbn [all]. intros H. apply andb_prop in H as [Hc Hrest].
  destruct (IH Hrest) as [Hp | (s & r & -> & Hr)].
  - destruct (Ascii.eqb c ".") eqn:Hdot.
    + apply Ascii.eqb_eq in Hdot as ->. right. exists "", rest. auto.
    + left. cbn [all]. unfold plain. unfold noslash in Hc.
      rewrite Hc, Hdot. exact Hp.
  - right. exists (String c s), r. now rewrite app_cons.
Qed.

Lemma Ext_in_dir (dir file : string) :
  all noslash file = true -> Ext (dir +:+ "/" +:+ file) = Ext file.
Proof.
  intros H. destruct (noslash_cases _ H) as [Hp | (s & r & -> & Hr)].
  - now rewrite (Ext_after_sep _ _ Hp), (Ext_of_plain _ Hp).
  - replace (dir +:+ "/" +:+ s +:+ "." +:+ r)
      with ((dir +:+ "/" +:+ s) +:+ "." +:+ r) by (now rewrite !app_assoc).
    now rewrite !(Ext_app_dot _ _ Hr).
Qed.

Lemma stem_in_dir (dir file : string) :
  all noslash file = true ->
  stem (dir +:+ "/" +:+ file) = dir +:+ "/" +:+ stem file.
Proof.
  intros H. pose proof (stem_Ext (dir +:+ "/" +:+ file)) as E.
  rewrite (Ext_in_dir _ _ H) in E.
  assert (E2 : (dir +:+ "/" +:+ stem file) +:+ Ext file = dir +:+ "/" +:+ file)
    by (now rewrite !app_assoc, stem_Ext).
  apply (app_inv_tail _ _ (Ext file)). now rewrite E2.
Qed.

Lemma length_hashed (p d : string) :
  String.length (hashed p d) = String.length p + 1 + String.length d.
Proof.
  unfold hashed. rewrite !length_app. pose proof (length_stem p) as L.
  simpl String.length. lia.
Qed.

(** [Ext] of a hashed name *)
Lemma Ext_hashed (p d : string) :
  all plain d = true ->
  Ext (hashed p d) = if String.eqb (Ext p) "" then "." +:+ d else Ext p.
Proof.
  intros Hd. destruct (Ext_cases p) as [H | (s & r & -> & Hr & H)].
  - rewrite (hashed_noext _ _ H), H. cbn [String.eqb]. now apply Ext_app_dot.
  - unfold hashed. rewrite H, (stem_app_dot _ _ Hr).
    replace (s +:+ "." +:+ d +:+ "." +:+ r) with ((s +:+ "." +:+ d) +:+ "." +:+ r)
      by (now rewrite !app_assoc).
    now rewrite (Ext_app_dot _ _ Hr).
Qed.

(** what a call of [Hash] that returns a digest leaves in the two maps *)
Lemma Hash_digest (f : FS) (name d : string) (f' : FS) (tr : list event) :
  reachable f -> Hash name f = Some (d, f', tr) -> d <> "" ->
  is_digest d /\ hash f' !! name = Some d /\ base f' !! hashed name d = Some name.
Proof.
  intros Hr. destruct (reachable_consistent _ Hr) as [H1 _].
  rewrite Hash_eq. destruct (hash f !! name) as [h|] eqn:Hh.
  - intros [= <- <- _] _. destruct (H1 _ _ Hh). auto.
  - cbv zeta. destruct (String.eqb _ "") eqn:Hd.
    + intros [= <- _ _]. congruence.
    + apply String.eqb_neq in Hd. intros [= <- <- _] _.
      split; [now apply digest_of_digest|]. cbn [put hash base].
      now rewrite !lookup_insert_eq.
Qed.

(** a successful [Open] of a name that is not in the base map *)
Lemma Open_miss_ok (f : FS) (name : string) (file : File) (f' : FS) (tr : list event) :
  base f !! name = None -> Open name f = Some (Ok file, f', tr) ->
  Ext name <> "" /\
  digest_of (fs f) (fst (candidate name)) <> "" /\
  tail (snd (candidate name)) = digest_of (fs f) (fst (candidate name)) /\
  name = hashed (fst (candidate name)) (digest_of (fs f) (fst (candidate name))) /\
  f' = put (fst (candidate name)) (digest_of (fs f) (fst (candidate name))) f /\
  fs f (fst (candidate name)) = Ok file /\
  tr = [EvReadFile (fst (candidate name)); EvOpen (fst (candidate name))].
Proof.
  intros Hmiss. rewrite Open_eq, Hmiss.
  destruct (String.eqb (Ext name) "") eqn:Hext; [discriminate|].
  apply String.eqb_neq in Hext. cbv zeta.
  destruct (String.eqb (digest_of _ _) "") eqn:Hd; cbn [orb]; [discriminate|].
  destruct (String.eqb (tail _) _) eqn:Ht; cbn [negb]; [|discriminate].
  apply String.eqb_neq in Hd. apply String.eqb_eq in Ht.
  rewrite (Open_put _ _ Hext Ht). intros [= Hfile <- <-].
  repeat split; try assumption.
  destruct (candidate name) as [b hx] eqn:Hc. cbn [fst snd] in *.
  destruct (hashed_candidate _ _ _ Hext Hc) as (_ & _ & Hn). now rewrite <- Ht.
Qed.

End MoreFacts.
Import MoreFacts.

(** * Further properties of the code *)

(** X1.  [Hash] and [Name] return for every name and every adapter: the
    slice [name[:len(name)-len(ext)]] is in range.  So no history of calls
    and changes of the backing file system panics. *)
Theorem calls_never_panic (f : FS) (name : string) (steps : list step) :
  (exists d f' tr, Hash name f = Some (d, f', tr)) /\
  (exists n f' tr, Name name f = Some (n, f', tr)) /\
  (exists f', run f steps = Some f').
Proof.
  assert (HH : exists d f' tr, Hash name f = Some (d, f', tr)).
  { rewrite Hash_eq. destruct (hash f !! name); [eauto|]. cbv zeta.
    destruct (String.eqb _ ""); eauto. }
  split; [exact HH|]. split; [|apply run_total].
  rewrite Name_eq. destruct HH as (d & f' & tr & ->).
  destruct (String.eqb d ""); eauto.
Qed.

(** X2.  For an adapter reached by any history, the name [Name] returns
    for a digest keeps the extension of the plain name, so that a type
    found by extension is the same; without extension the digest is the
    extension.  The name is 65 characters longer than the plain name. *)
Theorem Name_keeps_extension (f : FS) (name d : string) (f' : FS) (tr : list event) :
  reachable f ->
  Hash name f = Some (d, f', tr) ->
  d <> "" ->
  exists n,
    Name name f = Some (n, f', tr) /\
    Ext n = (if String.eqb (Ext name) "" then "." +:+ d else Ext name) /\
    String.length n = (String.length name + 65)%nat.
Proof.
  intros Hr HH Hd. destruct (Hash_digest _ _ _ _ _ Hr HH Hd) as ([Hlen Hhex] & _).
  exists (hashed name d). rewrite Name_eq, HH.
  apply String.eqb_neq in Hd. rewrite Hd. split; [reflexivity|]. split.
  - apply Ext_hashed, digest_plain. now split.
  - rewrite length_hashed, Hlen. lia.
Qed.

Lemma Name_keeps_extension_witness :
  exists n,
    Name "testdata/base.ext" (New testdata) =
      Some (n, put "testdata/base.ext" Tests.base_hash (New testdata),
            [EvReadFile "testdata/base.ext"]) /\
    Ext n = ".ext" /\ String.length n = 82%nat.
Proof.
  assert (Hr : reachable (New testdata)) by (exists testdata, []; reflexivity).
  assert (H : Hash "testdata/base.ext" (New testdata) =
    Some (Tests.base_hash, put "testdata/base.ext" Tests.base_hash (New testdata),
          [EvReadFile "testdata/base.ext"])) by (vm_compute; reflexivity).
  destruct (Name_keeps_extension _ _ _ _ _ Hr H) as (n & Hn & He & Hl);
    [discriminate|].
  exists n. split; [exact Hn|]. split; [exact He | exact Hl].
Defined.

(** X3.  [Name] puts the digest into the last element of the path: for a
    name [dir/file], [file] holding no separator, it returns [dir/] followed
    by the hashed name of [file]; the directory is left as it is, dots
    included. *)
Theorem Name_keeps_directory (f : FS) (dir file d : string) (f' : FS) (tr : list event) :
  all noslash file = true ->
  Hash (dir +:+ "/" +:+ file) f = Some (d, f', tr) ->
  d <> "" ->
  Name (dir +:+ "/" +:+ file) f =
    Some (dir +:+ "/" +:+ stem file +:+ "." +:+ d +:+ Ext file, f', tr).
Proof.
  intros Hf HH Hd. rewrite Name_eq, HH.
  apply String.eqb_neq in Hd. rewrite Hd. unfold hashed.
  now rewrite (Ext_in_dir _ _ Hf), (stem_in_dir _ _ Hf), !app_assoc.
Qed.

Lemma Name_keeps_directory_witness :
  Name ("v1.2" +:+ "/" +:+ "app.css") (New (MapFS [("v1.2/app.css", line "old")])) =
    Some ("v1.2" +:+ "/" +:+ "app" +:+ "." +:+ Scenario.old_hash +:+ ".css",
          put "v1.2/app.css" Scenario.old_hash (New (MapFS [("v1.2/app.css", line "old")])),
          [EvReadFile "v1.2/app.css"]).
Proof.
  apply (Name_keeps_directory (New (MapFS [("v1.2/app.css", line "old")]))
           "v1.2" "app.css" Scenario.old_hash).
  - reflexivity.
  - vm_compute. reflexivity.
  - discriminate.
Defined.

(** X4.  Hashed names do not collide: when [Name] returns the same
    non-empty name for [p] on one adapter and for [q] on another, both
    reached by any histories, then [p] and [q] are the same plain name, and
    the digests then cached for it are the same. *)
Theorem Name_injective (f g : FS) (p q n : string) (f' g' : FS) (t t' : list event) :
  reachable f -> reachable g ->
  Name p f = Some (n, f', t) ->
  Name q g = Some (n, g', t') ->
  n <> "" ->
  p = q /\ hash f' !! p = hash g' !! q.
Proof.
  intros Hf Hg. rewrite !Name_eq.
  destruct (Hash p f) as [[[d f1] t1]|] eqn:Hp; [|discriminate].
  destruct (Hash q g) as [[[e g1] t2]|] eqn:Hq; [|discriminate].
  destruct (String.eqb d "") eqn:Hd; [intros [= <- _ _] _ Hn; congruence|].
  destruct (String.eqb e "") eqn:He; [intros _ [= <- _ _] Hn; congruence|].
  apply String.eqb_neq in Hd, He.
  intros [= <- <- _] [= E <- _] _.
  destruct (Hash_digest _ _ _ _ _ Hf Hp Hd) as (Dd & Hd' & _).
  destruct (Hash_digest _ _ _ _ _ Hg Hq He) as (De & He' & _).
  symmetry in E. apply hashed_inj in E as [-> ->]; auto using digest_plain.
  split; [reflexivity | congruence].
Qed.

Lemma Name_injective_witness :
  "app.css" = "app.css" /\
  hash Scenario.cached !! "app.css" =
  hash (with_fs Scenario.new_fs Scenario.cached) !! "app.css".
Proof.
  apply (Name_injective (New Scenario.old_fs) (with_fs Scenario.new_fs Scenario.cached)
           "app.css" "app.css" Scenario.old_name
           Scenario.cached (with_fs Scenario.new_fs Scenario.cached)
           [EvReadFile "app.css"] []).
  - exists Scenario.old_fs, []. reflexivity.
  - exists Scenario.old_fs, [CallHash "app.css"; Change Scenario.new_fs].
    vm_compute. reflexivity.
  - vm_compute. reflexivity.
  - vm_compute. reflexivity.
  - discriminate.
Defined.

(** X5.  [Open] serves hashed names only: for an adapter reached by any
    history, a name that [Open] opens is the hashed name, for some digest
    of 64 hexadecimal characters, of the plain name whose file it returns;
    it is in the base map afterwards and has at least 65 characters. *)
Theorem Open_serves_hashed_names_only (f : FS) (name : string) (file : File)
    (f' : FS) (tr : list event) :
  reachable f ->
  Open name f = Some (Ok file, f', tr) ->
  exists p d,
    is_digest d /\ name = hashed p d /\
    base f' !! name = Some p /\ fs f p = Ok file /\
    (65 <= String.length name)%nat.
Proof.
  intros Hr Ho. destruct (reachable_consistent _ Hr) as [_ H2].
  assert (HL : forall p d, is_digest d -> (65 <= String.length (hashed p d))%nat).
  { intros p d [Hlen _]. rewrite length_hashed, Hlen. lia. }
  destruct (base f !! name) as [p|] eqn:Hb.
  - rewrite Open_eq, Hb in Ho. injection Ho as Hfile <- _.
    destruct (H2 _ _ Hb) as (d & Hd & -> & _).
    exists p, d. repeat split; auto; apply Hd.
  - destruct (Open_miss_ok _ _ _ _ _ Hb Ho) as (_ & Hd & _ & Hn & -> & Hfile & _).
    apply digest_of_digest in Hd.
    exists (fst (candidate name)), (digest_of (fs f) (fst (candidate name))).
    split; [exact Hd|]. split; [exact Hn|]. split.
    + cbn [put base]. rewrite <- Hn. apply lookup_insert_eq.
    + split; [exact Hfile|]. rewrite Hn at 1. now apply HL.
Qed.

Lemma Open_serves_hashed_names_only_witness :
  exists p d,
    is_digest d /\ Scenario.new_name = hashed p d /\
    base Scenario.reopened !! Scenario.new_name = Some p /\
    Scenario.new_fs p = Ok (mkFile (Ok (line "new"))) /\
    (65 <= String.length Scenario.new_name)%nat.
Proof.
  apply (Open_serves_hashed_names_only (with_fs Scenario.new_fs Scenario.cached)
           Scenario.new_name (mkFile (Ok (line "new"))) Scenario.reopened
           [EvReadFile "app.css"; EvOpen "app.css"]).
  - exists Scenario.old_fs, [CallHash "app.css"; Change Scenario.new_fs].
    vm_compute. reflexivity.
  - vm_compute. reflexivity.
Defined.

(** X6.  For an adapter reached by any history, [Open] of the hashed name
    that carries the sha256 digest of the bytes the backing file system has
    now for [p] succeeds and returns a file that reads as these bytes,
    whether or not [Hash] or [Name] was called for [p] before, and whatever
    digest is cached for [p]. *)
Theorem Open_accepts_current_digest (f : FS) (p : string) (b : list Byte.byte) :
  reachable f ->
  fs_ReadFile (fs f) p = Ok b ->
  exists file f' tr,
    Open (hashed p (hex_EncodeToString (Sum256 b))) f = Some (Ok file, f', tr) /\
    ReadAll file = Ok b.
Proof.
  intros Hr Hb. destruct (reachable_consistent _ Hr) as [_ H2].
  set (d := hex_EncodeToString (Sum256 b)).
  assert (Hd : is_digest d) by apply digest_Sum256.
  assert (Hfile : exists file, fs f p = Ok file /\ ReadAll file = Ok b).
  { unfold fs_ReadFile in Hb. destruct (fs f p) as [file|e]; [eauto | discriminate]. }
  destruct Hfile as (file & Hfile & Hread).
  assert (Hdig : digest_of (fs f) p = d) by (unfold digest_of; now rewrite Hb).
  destruct (candidate_hashed p d (digest_plain _ Hd)) as [Hext Hc].
  rewrite Open_eq. destruct (base f !! hashed p d) as [q|] eqn:Hq.
  - destruct (H2 _ _ Hq) as (e & He & E & _).
    apply hashed_inj in E as [<- _]; auto using digest_plain.
    rewrite Hfile. eauto.
  - apply String.eqb_neq in Hext. rewrite Hext, Hc. cbv zeta. cbn [fst snd].
    rewrite Hdig. pose proof (digest_nonempty _ Hd) as Hne.
    apply String.eqb_neq in Hne. rewrite Hne. cbn [orb].
    change (tail ("." +:+ d)) with d. rewrite String.eqb_refl. cbn [negb].
    rewrite Hfile. eauto.
Qed.

Lemma Open_accepts_current_digest_witness :
  exists file f' tr,
    Open (hashed "app.css" (hex_EncodeToString (Sum256 (line "new"))))
         (with_fs Scenario.new_fs Scenario.cached) = Some (Ok file, f', tr) /\
    ReadAll file = Ok (line "new").
Proof.
  apply (Open_accepts_current_digest (with_fs Scenario.new_fs Scenario.cached)
           "app.css" (line "new")).
  - exists Scenario.old_fs, [CallHash "app.css"; Change Scenario.new_fs].
    vm_compute. reflexivity.
  - vm_compute. reflexivity.
Defined.

(** X7.  A name of the base map is trusted for good: for an adapter reached
    by any history, a name that is in the base map stays there, for the same
    plain name, through any further calls and changes of the backing file
    system, and [Open] of it returns what the backing file system then
    returns for the plain name, with no read of the file, no validation of
    the digest and no change of the adapter. *)
Theorem base_entry_trusted_for_good (f : FS) (name p : string) (steps : list step) (f' : FS) :
  reachable f ->
  base f !! name = Some p ->
  run f steps = Some f' ->
  base f' !! name = Some p /\
  Open name f' = Some (fs f' p, f', [EvOpen p]).
Proof.
  intros Hr Hb Hrun.
  destruct (grows_run _ _ _ (reachable_consistent _ Hr) Hrun) as [_ Hsub].
  assert (Hb' : base f' !! name = Some p).
  { exact (proj1 (map_subseteq_spec (base f) (base f')) Hsub _ _ Hb). }
  split; [exact Hb'|]. now rewrite Open_eq, Hb'.
Qed.

Lemma base_entry_trusted_for_good_witness :
  base (with_fs Scenario.new_fs Scenario.cached) !! Scenario.old_name = Some "app.css" /\
  Open Scenario.old_name (with_fs Scenario.new_fs Scenario.cached) =
    Some (Scenario.new_fs "app.css", with_fs Scenario.new_fs Scenario.cached,
          [EvOpen "app.css"]).
Proof.
  apply (base_entry_trusted_for_good Scenario.cached Scenario.old_name "app.css"
           [Change Scenario.new_fs]).
  - exists Scenario.old_fs, [CallHash "app.css"]. vm_compute. reflexivity.
  - vm_compute. reflexivity.
  - reflexivity.
Defined.

(** X8.  [Name] gives back the name [Open] accepted: whatever the adapter,
    after [Open] has opened a name that was not in the base map, [Name] of
    the plain name it opened returns that name, without reading the file. *)
Theorem Name_after_Open (f : FS) (name : string) (file : File) (f' : FS) (tr : list event) :
  base f !! name = None ->
  Open name f = Some (Ok file, f', tr) ->
  Name (fst (candidate name)) f' = Some (name, f', []).
Proof.
  intros Hb Ho.
  destruct (Open_miss_ok _ _ _ _ _ Hb Ho) as (_ & Hd & _ & Hn & -> & _).
  rewrite Name_eq, Hash_eq. cbn [put hash]. rewrite lookup_insert_eq.
  apply String.eqb_neq in Hd. rewrite Hd. now rewrite <- Hn.
Qed.

Lemma Name_after_Open_witness :
  Name (fst (candidate Scenario.new_name)) Scenario.reopened =
    Some (Scenario.new_name, Scenario.reopened, []).
Proof.
  apply (Name_after_Open (with_fs Scenario.new_fs Scenario.cached) Scenario.new_name
           (mkFile (Ok (line "new"))) Scenario.reopened
           [EvReadFile "app.css"; EvOpen "app.css"]).
  - vm_compute. reflexivity.
  - vm_compute. reflexivity.
Defined.


(** X10.  [Name] is stable: whatever the adapter, once [Name] has returned
    a non-empty name for [p] it returns the same name, without reading the
    file, after any further calls of [Hash] and [Name] and any changes of
    the backing file system, the file [p] included. *)
Theorem Name_stable (f : FS) (p n : string) (f1 : FS) (t1 : list event)
    (steps : list step) (f2 : FS) :
  Name p f = Some (n, f1, t1) ->
  n <> "" ->
  no_open steps = true ->
  run f1 steps = Some f2 ->
  Name p f2 = Some (n, f2, []).
Proof.
  rewrite Name_eq. destruct (Hash p f) as [[[h g] t]|] eqn:Hh; [|discriminate].
  destruct (String.eqb h "") eqn:Hne; [intros [= <- _ _] Hn; congruence|].
  intros [= <- <- _] _ Hq Hrun.
  assert (H1 : hash g !! p = Some h).
  { rewrite Hash_eq in Hh. destruct (hash f !! p) as [c|] eqn:Hc.
    - now injection Hh as -> <- _.
    - cbv zeta in Hh. destruct (String.eqb (digest_of (fs f) p) "").
      + injection Hh as <- _ _. discriminate.
      + injection Hh as <- <- _. cbn [put hash]. apply lookup_insert_eq. }
  destruct (no_open_run _ _ _ Hq Hrun) as [_ Hk].
  rewrite Name_eq, Hash_eq, (Hk _ _ H1). now rewrite Hne.
Qed.

Lemma Name_stable_witness :
  Name "app.css" (with_fs Scenario.new_fs Scenario.cached) =
    Some (Scenario.old_name, with_fs Scenario.new_fs Scenario.cached, []).
Proof.
  apply (Name_stable (New Scenario.old_fs) "app.css" Scenario.old_name
           Scenario.cached [EvReadFile "app.css"] [Change Scenario.new_fs]).
  - vm_compute. reflexivity.
  - discriminate.
  - reflexivity.
  - reflexivity.
Defined.

(** X11.  A call touches one entry of each map, whatever the adapter.
    [Hash] and [Name] leave the digests of all other names and all entries
    of the base map but the one of the hashed name as they were; [Open]
    leaves the digests of all names but the plain name it takes from the
    requested name, and all entries of the base map but the one of the
    requested name.  None of them replaces the backing file system. *)
Theorem calls_touch_one_entry (f : FS) (name : string) :
  (forall d f' tr, Hash name f = Some (d, f', tr) ->
     fs f' = fs f /\
     (forall q, q <> name -> hash f' !! q = hash f !! q) /\
     (forall k, k <> hashed name d -> base f' !! k = base f !! k)) /\
  (forall n f' tr, Name name f = Some (n, f', tr) ->
     fs f' = fs f /\
     (forall q, q <> name -> hash f' !! q = hash f !! q) /\
     (forall k, k <> n -> base f' !! k = base f !! k)) /\
  (forall r f' tr, Open name f = Some (r, f', tr) ->
     fs f' = fs f /\
     (forall q, q <> fst (candidate name) -> hash f' !! q = hash f !! q) /\
     (forall k, k <> name -> base f' !! k = base f !! k)).
Proof.
  assert (HH : forall d f' tr, Hash name f = Some (d, f', tr) ->
     fs f' = fs f /\
     (forall q, q <> name -> hash f' !! q = hash f !! q) /\
     (forall k, k <> hashed name d -> base f' !! k = base f !! k)).
  { intros d f' tr. rewrite Hash_eq. destruct (hash f !! name) as [h|].
    - intros [= _ <- _]. auto.
    - cbv zeta. destruct (String.eqb _ "").
      + intros [= _ <- _]. auto.
      + intros [= <- <- _]. cbn [put fs hash base]. split; [reflexivity|].
        split; intros x Hx; now rewrite lookup_insert_ne. }
  split; [exact HH|]. split.
  - intros n f' tr. rewrite Name_eq.
    destruct (Hash name f) as [[[h f1] t1]|] eqn:Hh; [|discriminate].
    destruct (HH _ _ _ eq_refl) as (Hfs & Hhash & Hbase).
    assert (Hkeep : h = "" -> forall k, base f1 !! k = base f !! k).
    { intros ->. rewrite Hash_eq in Hh. destruct (hash f !! name) as [c|].
      - now injection Hh as _ <- _.
      - cbv zeta in Hh. destruct (String.eqb (digest_of (fs f) name) "") eqn:Hd.
        + now injection Hh as <- _.
        + apply String.eqb_neq in Hd. injection Hh as E _ _. congruence. }
    destruct (String.eqb h "") eqn:E.
    + apply String.eqb_eq in E. intros [= <- <- _]. auto.
    + intros [= <- <- _]. auto.
  - intros r f' tr. rewrite Open_eq. destruct (base f !! name) as [p|].
    + intros [= _ <- _]. auto.
    + destruct (String.eqb (Ext name) ""); [intros [= _ <- _]; auto|]. cbv zeta.
      destruct (_ || _).
      * intros [= _ <- _]. auto.
      * intros [= _ <- _]. cbn [fs hash base]. split; [reflexivity|].
        split; intros x Hx; now rewrite lookup_insert_ne.
Qed.

(** X12.  A request without extension costs nothing: for an adapter
    reached by any history, [Open] of a name whose last element has no dot
    fails with the not-exist error for that name, calls the backing file
    system not at all and leaves the adapter as it was. *)
Theorem Open_without_extension (f : FS) (name : string) :
  reachable f ->
  Ext name = "" ->
  Open name f = Some (Failed (NotExist name), f, []).
Proof.
  intros Hr Hext. destruct (reachable_consistent _ Hr) as [_ H2].
  rewrite Open_eq. destruct (base f !! name) as [p|] eqn:Hb.
  - exfalso. destruct (H2 _ _ Hb) as (d & Hd & E & _).
    destruct (candidate_hashed p d (digest_plain _ Hd)) as [Hne _]. congruence.
  - now rewrite Hext.
Qed.

Lemma Open_without_extension_witness :
  Open "v1.2/readme" Scenario.reopened =
    Some (Failed (NotExist "v1.2/readme"), Scenario.reopened, []).
Proof.
  apply (Open_without_extension Scenario.reopened "v1.2/readme").
  - exists Scenario.old_fs,
      [CallHash "app.css"; Change Scenario.new_fs; CallOpen Scenario.new_name].
    vm_compute. reflexivity.
  - reflexivity.
Defined.



(** X14.  The empty string of [makeHash] means failure and nothing else:
    whatever the adapter, [makeHash] makes one [ReadFile] of the name, leaves
    the adapter as it was, and returns the empty string exactly when the read
    fails; for a file that is read, an empty one included, it returns the
    sha256 digest of the bytes in 64 lowercase hexadecimal characters. *)
Theorem makeHash_sentinel (f : FS) (name : string) :
  exists d,
    makeHash name f = Some (d, f, [EvReadFile name]) /\
    (d = "" <-> exists e, fs_ReadFile (fs f) name = Failed e) /\
    (forall b, fs_ReadFile (fs f) name = Ok b ->
       d = hex_EncodeToString (Sum256 b) /\ is_digest d).
Proof.
  exists (digest_of (fs f) name). split; [apply makeHash_eq|].
  unfold digest_of. destruct (fs_ReadFile (fs f) name) as [b|e].
  - split.
    + split; [|intros [e He]; discriminate].
      intros E. now apply (digest_nonempty _ (digest_Sum256 b)) in E.
    + intros b' [= <-]. split; [reflexivity | apply digest_Sum256].
  - split; [split; eauto|]. discriminate.
Qed.

(** X15.  [Open] can be repeated: whatever the adapter, a second [Open] of
    the same name, the backing file system being the same, returns what the
    first returned and leaves the adapter as the first left it. *)
Theorem Open_twice (f : FS) (name : string) (r : result File) (f' : FS) (tr : list event) :
  Open name f = Some (r, f', tr) ->
  exists tr', Open name f' = Some (r, f', tr').
Proof.
  intros Ho. destruct (base f !! name) as [p|] eqn:Hb.
  - rewrite Open_eq, Hb in Ho. injection Ho as <- <- <-.
    rewrite Open_eq, Hb. eauto.
  - destruct r as [file|e].
    + destruct (Open_miss_ok _ _ _ _ _ Hb Ho) as (_ & _ & _ & Hn & -> & Hfile & _).
      rewrite Open_eq. cbn [put base fs]. rewrite <- Hn, lookup_insert_eq, Hfile.
      eauto.
    + rewrite Open_eq, Hb in Ho.
      assert (f' = f) as ->.
      { destruct (String.eqb (Ext name) ""); [now injection Ho|].
        cbv zeta in Ho. destruct (_ || _) eqn:Hv; [now injection Ho|].
        injection Ho as Hfile _ _. exfalso.
        apply orb_false_elim in Hv as [Hd _]. apply String.eqb_neq in Hd.
        apply Hd. unfold digest_of, fs_ReadFile. now rewrite Hfile. }
      rewrite Open_eq, Hb. eauto.
Qed.

Lemma Open_twice_witness :
  exists tr',
    Open Scenario.new_name Scenario.reopened =
      Some (Ok (mkFile (Ok (line "new"))), Scenario.reopened, tr').
Proof.
  apply (Open_twice (with_fs Scenario.new_fs Scenario.cached) Scenario.new_name
           (Ok (mkFile (Ok (line "new")))) Scenario.reopened
           [EvReadFile "app.css"; EvOpen "app.css"]).
  vm_compute. reflexivity.
Defined.
